(** * Procedural background synthesis: [randomLib/random_background.py]

    A shallow embedding of the compositing pipeline of the repository
    ([random_color], [mix], [random_image], [rand_background]) together with
    the part of NumPy it relies on (shapes, broadcasting, slices along the
    channel axis), and the properties its specification states about it.

    Conventions.
    - Array cells are rationals ([Q]) and equalities between cells are
      [Qeq]. The array operations compute exactly; where a property
      depends on the rounding of binary64 floats, every operation is
      followed by an explicit rounding [rnd] with the usual error bound
      ([blend_rounded], [rounding_error]), and line 27 is also given at
      one cell on binary64 floats ([Binary64.blend_cell]).
    - An [ndarray] is a shape and a cell function on index lists; only the
      cells whose index is within the shape are meaningful.
    - Python exceptions are the [Raise] results of an error monad which also
      threads the state of the random generator.
    - The imported modules [turbulence] and [metaballs] are not part of the
      sources at hand: they are fields of an environment [Env], and what the
      specification promises about them is stated as [env_ok]. *)

From Stdlib Require Import List Bool Arith ZArith QArith Qminmax Qabs Qround Lia Lqa.
From Stdlib Require PrimFloat.
Import ListNotations.

Set Implicit Arguments.

(** ** Exceptions, results, and the generator monad *)

Inductive exn : Type :=
| ValueError              (* NumPy: negative dimension, shapes not broadcastable *)
| IndexError              (* NumPy: too many indices, index out of range *)
| InvalidDimensionError   (* taxonomy of the specification, section 7 *)
| DimensionMismatchError. (* taxonomy of the specification, section 7 *)

Inductive result (A : Type) : Type :=
| Ok (a : A)
| Raise (e : exn).

Arguments Ok {A} a.
Arguments Raise {A} e.

(** State of the process-wide generator: the number of samples drawn. *)
Definition rng := nat.

Definition M (A : Type) : Type := rng -> result (A * rng).

Definition ret {A} (a : A) : M A := fun st => Ok (a, st).

Definition bind {A B} (m : M A) (f : A -> M B) : M B :=
  fun st =>
    match m st with
    | Ok (a, st') => f a st'
    | Raise e => Raise e
    end.

Definition lift {A} (r : result A) : M A :=
  fun st =>
    match r with
    | Ok a => Ok (a, st)
    | Raise e => Raise e
    end.

Declare Scope gen_scope.
Delimit Scope gen_scope with gen.
Notation "x <- c1 ;; c2" := (bind c1 (fun x => c2))
  (at level 61, c1 at next level, right associativity) : gen_scope.
Local Open Scope gen_scope.

(** [for i in range(count): acc = body(i, acc)], counting from [start]. *)
Fixpoint for_range_from {A} (start count : nat) (body : nat -> A -> M A) (acc : A)
  : M A :=
  match count with
  | O => ret acc
  | S k => acc' <- body start acc ;; for_range_from (S start) k body acc'
  end.

Definition for_range {A} (count : nat) (body : nat -> A -> M A) (acc : A) : M A :=
  for_range_from 0 count body acc.

(** Python's [x > y] on floats. *)
Definition Qgt_bool (x y : Q) : bool := negb (Qle_bool x y).

(** ** NumPy arrays *)

Record ndarray : Type := mk_ndarray {
  shape : list nat;
  item : list nat -> Q
}.

Definition in_bounds (idx sh : list nat) : Prop := Forall2 lt idx sh.

Fixpoint in_boundsb (idx sh : list nat) : bool :=
  match idx, sh with
  | [], [] => true
  | i :: idx', d :: sh' => (i <? d)%nat && in_boundsb idx' sh'
  | _, _ => false
  end.

(** Two arrays are equal when they have the same shape and the same cells. *)
Definition array_eq (a b : ndarray) : Prop :=
  shape a = shape b /\ forall idx, in_bounds idx (shape b) -> item a idx == item b idx.

(** All the cells of [a] lie in the closed interval [[lo, hi]]. *)
Definition cells_in (lo hi : Q) (a : ndarray) : Prop :=
  forall idx, in_bounds idx (shape a) -> lo <= item a idx /\ item a idx <= hi.

(** All the cells of [a] are at least [lo], respectively at most [hi]. *)
Definition cells_ge (lo : Q) (a : ndarray) : Prop :=
  forall idx, in_bounds idx (shape a) -> lo <= item a idx.

Definition cells_le (hi : Q) (a : ndarray) : Prop :=
  forall idx, in_bounds idx (shape a) -> item a idx <= hi.

(** A Python float used as an operand: an array without axes. *)
Definition scalar (q : Q) : ndarray := {| shape := []; item := fun _ => q |}.

(** [np.full(dims, v)]; a negative dimension is a [ValueError]. *)
Definition np_full (dims : list Z) (v : Q) : result ndarray :=
  if forallb (fun d => 0 <=? d)%Z dims
  then Ok {| shape := map Z.to_nat dims; item := fun _ => v |}
  else Raise ValueError.

Definition np_ones (dims : list Z) : result ndarray := np_full dims 1.
Definition np_zeros (dims : list Z) : result ndarray := np_full dims 0.

(** *** Broadcasting *)

Definition broadcast_dim (d1 d2 : nat) : option nat :=
  if (d1 =? d2)%nat then Some d1
  else if (d1 =? 1)%nat then Some d2
  else if (d2 =? 1)%nat then Some d1
  else None.

(** Shapes are aligned on their last axis: the recursion runs over the
    reversed shapes. *)
Fixpoint broadcast_rev (r1 r2 : list nat) : option (list nat) :=
  match r1, r2 with
  | [], r => Some r
  | r, [] => Some r
  | d1 :: t1, d2 :: t2 =>
      match broadcast_dim d1 d2, broadcast_rev t1 t2 with
      | Some d, Some t => Some (d :: t)
      | _, _ => None
      end
  end.

Definition broadcast_shapes (s1 s2 : list nat) : option (list nat) :=
  option_map (@rev nat) (broadcast_rev (rev s1) (rev s2)).

(** The cell of an operand of shape [s] that the cell [idx] of the result
    reads: leading axes the operand lacks are dropped, and an axis of
    length one is read at 0. *)
Definition project (idx s : list nat) : list nat :=
  map (fun p => if (snd p =? 1)%nat then O else fst p)
      (combine (skipn (length idx - length s) idx) s).

Definition elementwise (f : Q -> Q -> Q) (a b : ndarray) : result ndarray :=
  match broadcast_shapes (shape a) (shape b) with
  | Some s =>
      Ok {| shape := s;
            item := fun idx => f (item a (project idx (shape a)))
                                 (item b (project idx (shape b))) |}
  | None => Raise ValueError
  end.

Definition np_add : ndarray -> ndarray -> result ndarray := elementwise Qplus.
Definition np_sub : ndarray -> ndarray -> result ndarray := elementwise Qminus.
Definition np_mul : ndarray -> ndarray -> result ndarray := elementwise Qmult.

(** *** Assignment to a slice *)

(** On assignment NumPy drops unit axes on the left of the source while the
    source has more axes than the destination. *)
Fixpoint strip_units (s : list nat) (extra : nat) : list nat :=
  match extra, s with
  | S k, 1%nat :: t => strip_units t k
  | _, _ => s
  end.

Fixpoint shape_eqb (s1 s2 : list nat) : bool :=
  match s1, s2 with
  | [], [] => true
  | d1 :: t1, d2 :: t2 => (d1 =? d2)%nat && shape_eqb t1 t2
  | _, _ => false
  end.

(** The view of [v] with shape [target] that an assignment into a
    destination of that shape copies. *)
Definition broadcast_to (v : ndarray) (target : list nat) : result ndarray :=
  let s := strip_units (shape v) (length (shape v) - length target) in
  match broadcast_shapes s target with
  | Some s' =>
      if shape_eqb s' target
      then Ok {| shape := target;
                 item := fun idx =>
                   item v (repeat O (length (shape v) - length s) ++ project idx s) |}
      else Raise ValueError
  | None => Raise ValueError
  end.

(** [a[:,:,i]] *)
Definition get_channel (a : ndarray) (i : nat) : result ndarray :=
  match shape a with
  | h :: w :: d :: rest =>
      if (i <? d)%nat
      then Ok {| shape := h :: w :: rest;
                 item := fun idx => item a (firstn 2 idx ++ i :: skipn 2 idx) |}
      else Raise IndexError
  | _ => Raise IndexError
  end.

(** The array [a] once the view [v'] has been copied into its channel [i]. *)
Definition channel_update (a : ndarray) (i : nat) (v' : ndarray) : ndarray :=
  {| shape := shape a;
     item := fun idx =>
       match idx with
       | r :: c :: k :: tl =>
           if (k =? i)%nat then item v' (r :: c :: tl) else item a idx
       | _ => item a idx
       end |}.

(** [a[:,:,i] = v]; the array after the assignment. *)
Definition set_channel (a : ndarray) (i : nat) (v : ndarray) : result ndarray :=
  match shape a with
  | h :: w :: d :: rest =>
      if (i <? d)%nat
      then match broadcast_to v (h :: w :: rest) with
           | Ok v' => Ok (channel_update a i v')
           | Raise e => Raise e
           end
      else Raise IndexError
  | _ => Raise IndexError
  end.

(** ** The environment: generator and imported modules *)

Record Env : Type := mk_Env {
  (* the sample in [0,1) that the generator returns in a given state *)
  random_sample : rng -> Q;
  (* turbulence.turbulence_rgb(size) *)
  turbulence_rgb : Z -> M ndarray;
  (* metaballs.random_metaball(width, height, count, radius_scale) *)
  random_metaball : Z -> Z -> Z -> Q -> M ndarray
}.

Section Compositor.

Variable E : Env.

(** [np.random.uniform(lo, hi)]: [lo + (hi - lo) * sample]. *)
Definition uniform (lo hi : Q) : M Q :=
  fun st => Ok (lo + (hi - lo) * random_sample E st, S st).

(** [random_color(L)] *)
Definition random_color (L : Z) : M ndarray :=
  img <- lift (np_ones [L; L; 3%Z]) ;;
  for_range 3 (fun i img =>
    u <- uniform 0 1 ;;
    ch <- lift (get_channel img i) ;;
    v <- lift (np_mul (scalar u) ch) ;;
    lift (set_channel img i v)) img.

(** The radius scale that [mix] draws in generator state [st]. *)
Definition ball_size_at (st : rng) : Q :=
  (1 # 10) + ((1 # 2) - (1 # 10)) * random_sample E st.

(** Lines 20 to 25 of [mix]: the blend mask. *)
Definition mix_mask (size : Z) : M ndarray :=
  mask <- lift (np_zeros [size; size; 3%Z]) ;;
  ball_size <- uniform (1 # 10) (1 # 2) ;;
  ball <- random_metaball E size size 4 ball_size ;;
  mask <- lift (set_channel mask 0 ball) ;;
  c0 <- lift (get_channel mask 0) ;;
  mask <- lift (set_channel mask 1 c0) ;;
  c0 <- lift (get_channel mask 0) ;;
  lift (set_channel mask 2 c0).

(** Line 27 of [mix]: [img1*(1-mask) + img2*mask]. *)
Definition blend (img1 img2 mask : ndarray) : result ndarray :=
  match np_sub (scalar 1) mask with
  | Ok inv =>
      match np_mul img1 inv with
      | Ok lhs =>
          match np_mul img2 mask with
          | Ok rhs => np_add lhs rhs
          | Raise e => Raise e
          end
      | Raise e => Raise e
      end
  | Raise e => Raise e
  end.

(** [mix(img1, img2, size)] *)
Definition mix (img1 img2 : ndarray) (size : Z) : M ndarray :=
  mask <- mix_mask size ;;
  lift (blend img1 img2 mask).

(** [random_image(size)] *)
Definition random_image (size : Z) : M ndarray :=
  r <- uniform 0 1 ;;
  if Qgt_bool r (1 # 2)
  then random_color size
  else t <- turbulence_rgb E size ;;
       s <- uniform 0 2 ;;
       lift (np_mul t (scalar s)).

(** [rand_background(N, size)]; [range(N)] is empty for [N <= 0]. *)
Definition rand_background (N size : Z) : M ndarray :=
  T <- random_image size ;;
  for_range (Z.to_nat N) (fun _ T =>
    T2 <- random_image size ;;
    mix T T2 size) T.

End Compositor.

(** The shape of [img1*(1-mask) + img2*mask], when the operands broadcast. *)
Definition blend_shape (s1 s2 sm : list nat) : option (list nat) :=
  match broadcast_shapes s1 sm, broadcast_shapes s2 sm with
  | Some l, Some r => broadcast_shapes l r
  | _, _ => None
  end.

(** ** What the specification promises about the environment *)

(** Modelled from the spec: the contracts of the generator and of the
    modules [turbulence] and [metaballs], whose sources are missing.
    Section 6: the generator produces floats in [[0,1)]. Section 8: for all
    [size > 0], [turbulence_rgb(size)] returns a [size x size x 3] array
    with every value in [[0,1]] (what [test_turbulence_rgb] asserts for
    size 300); for all valid [width, height, count > 0],
    [radius_scale > 0], [random_metaball] returns a grid with every value
    in [[0,1]], of the dimensions asked for. *)
Record env_ok (E : Env) : Prop := mk_env_ok {
  sample_range : forall st, 0 <= random_sample E st /\ random_sample E st < 1;
  turbulence_rgb_ok : forall size st, (0 < size)%Z ->
    exists a st', turbulence_rgb E size st = Ok (a, st') /\
      shape a = [Z.to_nat size; Z.to_nat size; 3%nat] /\ cells_in 0 1 a;
  random_metaball_ok : forall w h count r st,
    (0 < w)%Z -> (0 < h)%Z -> (0 < count)%Z -> 0 < r ->
    exists g st', random_metaball E w h count r st = Ok (g, st') /\
      shape g = [Z.to_nat w; Z.to_nat h] /\ cells_in 0 1 g
}.

(** ** The noise field ([randomLib/turbulence.py]) *)

(** Modelled from the spec: [generate_noise(size)] of the module
    [turbulence], whose source is missing. Section 4.1: "returns an
    size x size grid where each cell is drawn independently and uniformly
    from [0,1]. Fails with InvalidDimensionError if size <= 0". The cells
    are drawn row by row, one sample each. *)
Definition generate_noise (E : Env) (size : Z) : M ndarray :=
  fun st =>
    if (size <=? 0)%Z then Raise InvalidDimensionError
    else
      let n := Z.to_nat size in
      Ok ({| shape := [n; n];
             item := fun idx =>
               match idx with
               | [i; j] => random_sample E (st + i * n + j)%nat
               | _ => 0
               end |},
          (st + n * n)%nat).

Definition Qsum (l : list Q) : Q := fold_right Qplus 0 l.

Definition mean (l : list Q) : Q := Qsum l / inject_Z (Z.of_nat (length l)).

(** The in-bounds positions at distance at most [w] of [i] on an axis of
    length [n]: from [max 0 (i - w)] to [min (n - 1) (i + w)]. *)
Definition window (i w n : nat) : list nat :=
  seq (i - w)%nat (Nat.min n (i + w + 1) - (i - w))%nat.

Definition neighbourhood (sh : list nat) (w i j : nat) : list (nat * nat) :=
  list_prod (window i w (nth 0 sh O)) (window j w (nth 1 sh O)).

(** A local average in the words of section 4.1 of the spec: "each cell is
    replaced by a local average over a window-radius neighborhood", and
    "neighborhoods that extend past the grid edge are truncated (averaged
    only over in-bounds cells), not wrapped or padded", here with equal
    weights on the square neighbourhood. The source of [smoothNoise] is
    missing and the spec leaves its kernel open: this is one kernel that
    fits the words, not a model of the repository's function. *)
Definition box_smooth (noise : ndarray) (w : nat) : ndarray :=
  {| shape := shape noise;
     item := fun idx =>
       match idx with
       | [i; j] =>
           mean (map (fun p => item noise [fst p; snd p])
                     (neighbourhood (shape noise) w i j))
       | _ => item noise idx
       end |}.

(** All the indices of an array of a given shape, in row-major order. *)
Fixpoint indices (sh : list nat) : list (list nat) :=
  match sh with
  | [] => [[]]
  | d :: t => flat_map (fun i => map (cons i) (indices t)) (seq 0 d)
  end.

Definition cells (a : ndarray) : list Q := map (item a) (indices (shape a)).

(** [np.var(a)]: the mean of the squared deviations from the mean. *)
Definition variance (a : ndarray) : Q :=
  let m := mean (cells a) in
  mean (map (fun x => (x - m) * (x - m)) (cells a)).

(** ** Concrete environments and images *)

Definition constant_grid (sh : list nat) (q : Q) : ndarray :=
  {| shape := sh; item := fun _ => q |}.

(** An environment whose generator returns 1/4 and then 3/4 for ever, whose
    turbulence images have the value [t] everywhere and whose metaball
    fields have the value [m] everywhere. *)
Definition flat_env (t m : Q) : Env :=
  {| random_sample := fun st => match st with O => 1 # 4 | _ => 3 # 4 end;
     turbulence_rgb := fun size st =>
       Ok (constant_grid [Z.to_nat size; Z.to_nat size; 3%nat] t, S st);
     random_metaball := fun w h _ _ st =>
       Ok (constant_grid [Z.to_nat w; Z.to_nat h] m, S st) |}.

Definition demo_env : Env := flat_env (9 # 10) (1 # 2).

(** A 30 x 30 grid whose rows all hold the same ramp, falling from 27/29 to
    2/29 between a raised and a lowered pair of cells at its two ends. *)
Definition ramp : list Q :=
  map (fun k => Qmake k 29)
      [25; 29; 27; 26; 25; 24; 23; 22; 21; 20; 19; 18; 17; 16; 15;
       14; 13; 12; 11; 10; 9; 8; 7; 6; 5; 4; 3; 2; 0; 4]%Z.

Definition ramp_grid : ndarray :=
  {| shape := [30; 30]%nat;
     item := fun idx =>
       match idx with
       | [_; j] => nth j ramp 0
       | _ => 0
       end |}.

(** [Qsum], [mean] and [variance] with every intermediate fraction reduced:
    the same numbers, computed without growth of the denominators. *)
Definition Qsum_red (l : list Q) : Q := fold_right (fun x acc => Qred (x + acc)) 0 l.

Definition mean_red (l : list Q) : Q :=
  Qred (Qsum_red l / inject_Z (Z.of_nat (length l))).

Definition variance_red (a : ndarray) : Q :=
  let xs := map Qred (cells a) in
  let m := mean_red xs in
  mean_red (map (fun x => Qred ((x - m) * (x - m))) xs).

(** The mask that [mix] builds for a 2 x 2 image in the environment whose
    metaball fields have the value [m]. *)
Definition built_mask (m : Q) : ndarray :=
  match mix_mask (flat_env (9 # 10) m) 2 0%nat with
  | Ok (mask, _) => mask
  | Raise _ => scalar 0
  end.

(** ** Runs *)

(** [m], run in state [st], returns a value that satisfies [P]. *)
Definition yields {A} (m : M A) (st : rng) (P : A -> Prop) : Prop :=
  exists a st', m st = Ok (a, st') /\ P a.

(** Modelled from the spec: the contract of [metaballs.random_metaball]
    alone, the third field of [env_ok]. *)
Definition metaball_contract (E : Env) : Prop :=
  forall w h count r st,
    (0 < w)%Z -> (0 < h)%Z -> (0 < count)%Z -> 0 < r ->
    exists g st', random_metaball E w h count r st = Ok (g, st') /\
      shape g = [Z.to_nat w; Z.to_nat h] /\ cells_in 0 1 g.

(** ** Mesh bounding boxes ([BlenderAPI/BlenderShapes.py]) *)

(** A vertex of the mesh: [v.co[0]], [v.co[1]], [v.co[2]]. *)
Record vertex : Type := mk_vertex { co0 : Q; co1 : Q; co2 : Q }.

(** Python's [max] and [min] of a sequence: the first greatest (least)
    element; [ValueError] on an empty sequence. *)
Fixpoint max_from (best : Q) (l : list Q) : Q :=
  match l with
  | [] => best
  | x :: t => max_from (if Qgt_bool x best then x else best) t
  end.

Fixpoint min_from (best : Q) (l : list Q) : Q :=
  match l with
  | [] => best
  | x :: t => min_from (if Qgt_bool best x then x else best) t
  end.

Definition py_max (l : list Q) : result Q :=
  match l with
  | [] => Raise ValueError
  | x :: t => Ok (max_from x t)
  end.

Definition py_min (l : list Q) : result Q :=
  match l with
  | [] => Raise ValueError
  | x :: t => Ok (min_from x t)
  end.

(** [max(V) - min(V)] *)
Definition extent (V : list Q) : result Q :=
  match py_max V with
  | Ok hi =>
      match py_min V with
      | Ok lo => Ok (hi - lo)
      | Raise e => Raise e
      end
  | Raise e => Raise e
  end.

(** [BlenderMesh.compute_mesh_bbvol], on the vertices of the mesh. *)
Definition compute_mesh_bbvol (vertices : list vertex) : result Q :=
  let VX := map co0 vertices in
  let VY := map co1 vertices in
  let VZ := map co2 vertices in
  match extent VX with
  | Ok dx =>
      match extent VY with
      | Ok dy =>
          match extent VZ with
          | Ok dz => Ok (dx * dy * dz)
          | Raise e => Raise e
          end
      | Raise e => Raise e
      end
  | Raise e => Raise e
  end.

Definition translate (d : vertex) (v : vertex) : vertex :=
  {| co0 := co0 v + co0 d; co1 := co1 v + co1 d; co2 := co2 v + co2 d |}.

(** ** Layers ([BlenderMesh.turn_off], [BlenderMesh.turn_on]) *)

(** [layers[k] = b]; an index past the end is an [IndexError]. *)
Fixpoint set_layer (layers : list bool) (k : nat) (b : bool) : result (list bool) :=
  match layers, k with
  | [], _ => Raise IndexError
  | _ :: t, O => Ok (b :: t)
  | x :: t, S k' =>
      match set_layer t k' b with
      | Ok t' => Ok (x :: t')
      | Raise e => Raise e
      end
  end.

(** [turn_off]: [layers[1] = True; layers[0] = False]. *)
Definition turn_off (layers : list bool) : result (list bool) :=
  match set_layer layers 1 true with
  | Ok l => set_layer l 0 false
  | Raise e => Raise e
  end.

(** [turn_on]: [layers[0] = True; layers[1] = False]. *)
Definition turn_on (layers : list bool) : result (list bool) :=
  match set_layer layers 0 true with
  | Ok l => set_layer l 1 false
  | Raise e => Raise e
  end.

(** An environment whose generator always returns 3/4, whose turbulence
    module always fails and whose metaball fields have the value 1/2. *)
Definition bright_env : Env :=
  {| random_sample := fun _ => 3 # 4;
     turbulence_rgb := fun _ _ => Raise ValueError;
     random_metaball := fun w h _ _ st =>
       Ok (constant_grid [Z.to_nat w; Z.to_nat h] (1 # 2), S st) |}.

(** An environment like [demo_env] whose metaball module returns, or
    raises, [field]. *)
Definition metaball_env (field : result ndarray) : Env :=
  {| random_sample := fun st => match st with O => 1 # 4 | _ => 3 # 4 end;
     turbulence_rgb := fun size st =>
       Ok (constant_grid [Z.to_nat size; Z.to_nat size; 3%nat] (9 # 10), S st);
     random_metaball := fun _ _ _ _ st =>
       match field with
       | Ok g => Ok (g, S st)
       | Raise e => Raise e
       end |}.

(** ** Rounded arithmetic *)

(** The cells of the program are binary64 floats: every arithmetic
    operation returns its exact result rounded. [rnd] stands for the
    rounding; [rounding_error rnd u eta] is the usual bound on it, a
    relative error of at most [u] and an absolute error of at most [eta]
    (binary64, round to nearest: [u = 2^-53], [eta = 2^-1075], as long as
    no operation overflows). *)
Definition rounding_error (rnd : Q -> Q) (u eta : Q) : Prop :=
  forall x, Qabs (rnd x - x) <= u * Qabs x + eta.

(** A rounding that keeps the interval [[0,1]], as rounding to nearest
    does, 0 and 1 being floats. *)
Definition keeps_unit_interval (rnd : Q -> Q) : Prop :=
  forall x, 0 <= x -> x <= 1 -> 0 <= rnd x /\ rnd x <= 1.

Definition round_cells (rnd : Q -> Q) (a : ndarray) : ndarray :=
  {| shape := shape a; item := fun idx => rnd (item a idx) |}.

(** Line 27 of [mix], [img1*(1-mask) + img2*mask], every one of its four
    array operations followed by the rounding of its cells. *)
Definition blend_rounded (rnd : Q -> Q) (img1 img2 mask : ndarray) : result ndarray :=
  match np_sub (scalar 1) mask with
  | Ok inv =>
      match np_mul img1 (round_cells rnd inv) with
      | Ok lhs =>
          match np_mul img2 mask with
          | Ok rhs =>
              match np_add (round_cells rnd lhs) (round_cells rnd rhs) with
              | Ok sum => Ok (round_cells rnd sum)
              | Raise e => Raise e
              end
          | Raise e => Raise e
          end
      | Raise e => Raise e
      end
  | Raise e => Raise e
  end.

(** Rounding to the nearest multiple of [2^-k], halves upwards: a rounding
    with absolute error at most [2^-(k+1)] that keeps [[0,1]]. *)
Definition round_to (k : positive) (x : Q) : Q :=
  inject_Z (Qfloor (x * inject_Z (2 ^ Zpos k) + (1 # 2))) / inject_Z (2 ^ Zpos k).

(** Line 27 of [mix] at one cell, on binary64 floats. *)
Module Binary64.
Import PrimFloat.

Definition blend_cell (a b m : float) : float := (a * (1 - m) + b * m)%float.

(* the floats that Python writes 0.1, 0.2 and 0.10000000000000002 *)
Definition tenth : float := 0x1.999999999999ap-4%float.
Definition fifth : float := 0x1.999999999999ap-3%float.
Definition above_tenth : float := 0x1.999999999999bp-4%float.

End Binary64.

(** ** Facts about shapes and broadcasting *)

Lemma in_bounds_length idx sh : in_bounds idx sh -> length idx = length sh.
Proof. intros H; induction H; simpl; congruence. Qed.

Lemma in_boundsb_spec idx sh : in_boundsb idx sh = true <-> in_bounds idx sh.
Proof.
  revert sh; induction idx as [|i idx IH]; intros [|d sh]; simpl; split; intros H;
    try discriminate; try (now constructor); try (now inversion H).
  - apply andb_true_iff in H as [Hi Hr]. constructor.
    + now apply Nat.ltb_lt.
    + now apply IH.
  - inversion H; subst. apply andb_true_iff; split.
    + now apply Nat.ltb_lt.
    + now apply IH.
Qed.

Lemma in_bounds2 i j n m : in_bounds [i; j] [n; m] <-> (i < n /\ j < m)%nat.
Proof.
  split.
  - intros H. inversion H as [|? ? ? ? Hi H1]; subst.
    inversion H1 as [|? ? ? ? Hj H2]; subst. auto.
  - intros [Hi Hj]. repeat constructor; assumption.
Qed.

Lemma in_bounds3 i j c n m d :
  in_bounds [i; j; c] [n; m; d] <-> (i < n /\ j < m /\ c < d)%nat.
Proof.
  split.
  - intros H. inversion H as [|? ? ? ? Hi H1]; subst.
    apply in_bounds2 in H1. tauto.
  - intros (Hi & Hj & Hc). repeat constructor; assumption.
Qed.

Lemma in_bounds3_inv idx n m d :
  in_bounds idx [n; m; d] ->
  exists i j c, idx = [i; j; c] /\ (i < n /\ j < m /\ c < d)%nat.
Proof.
  intros H. inversion H as [|i ? ? ? Hi H1]; subst.
  inversion H1 as [|j ? ? ? Hj H2]; subst.
  inversion H2 as [|c ? ? ? Hc H3]; subst.
  inversion H3; subst. exists i, j, c. auto.
Qed.

Lemma shape_eqb_eq s1 s2 : shape_eqb s1 s2 = true <-> s1 = s2.
Proof.
  revert s2; induction s1 as [|d1 t1 IH]; intros [|d2 t2]; simpl; split; intros H;
    try discriminate; try reflexivity.
  - apply andb_true_iff in H as [Hd Ht]. apply Nat.eqb_eq in Hd. apply IH in Ht.
    congruence.
  - injection H as -> ->. rewrite Nat.eqb_refl. simpl. now apply IH.
Qed.

Lemma broadcast_dim_refl d : broadcast_dim d d = Some d.
Proof. unfold broadcast_dim. now rewrite Nat.eqb_refl. Qed.

Lemma broadcast_rev_refl r : broadcast_rev r r = Some r.
Proof.
  induction r as [|d t IH]; simpl; [reflexivity|].
  now rewrite broadcast_dim_refl, IH.
Qed.

Lemma broadcast_shapes_refl s : broadcast_shapes s s = Some s.
Proof.
  unfold broadcast_shapes. rewrite broadcast_rev_refl. simpl.
  now rewrite rev_involutive.
Qed.

Lemma broadcast_rev_nil_r r : broadcast_rev r [] = Some r.
Proof. now destruct r. Qed.

Lemma broadcast_shapes_nil_l s : broadcast_shapes [] s = Some s.
Proof. unfold broadcast_shapes. simpl. now rewrite rev_involutive. Qed.

Lemma broadcast_shapes_nil_r s : broadcast_shapes s [] = Some s.
Proof.
  unfold broadcast_shapes. simpl. rewrite broadcast_rev_nil_r. simpl.
  now rewrite rev_involutive.
Qed.

Lemma project_nil idx : project idx [] = [].
Proof. unfold project. now rewrite combine_nil. Qed.

Lemma project_in_bounds idx s : in_bounds idx s -> project idx s = idx.
Proof.
  intros H. unfold project.
  rewrite (in_bounds_length H), Nat.sub_diag. simpl.
  induction H as [|i d idx s Hi H IH]; simpl; [reflexivity|].
  rewrite IH. destruct (Nat.eqb_spec d 1) as [->|_]; [|reflexivity].
  f_equal. lia.
Qed.

(** ** Facts about the array operations *)

Lemma np_full_ok dims v :
  Forall (fun d => 0 <= d)%Z dims ->
  np_full dims v = Ok {| shape := map Z.to_nat dims; item := fun _ => v |}.
Proof.
  intros H. unfold np_full.
  replace (forallb (fun d => (0 <=? d)%Z) dims) with true; [reflexivity|].
  symmetry. apply forallb_forall. intros d Hd.
  rewrite Forall_forall in H. apply Z.leb_le. now apply H.
Qed.

Lemma elementwise_same f a b :
  shape a = shape b ->
  exists r, elementwise f a b = Ok r /\ shape r = shape a /\
    forall idx, in_bounds idx (shape a) -> item r idx = f (item a idx) (item b idx).
Proof.
  intros Hs. unfold elementwise. rewrite <- Hs, broadcast_shapes_refl.
  eexists; split; [reflexivity|]. split; [reflexivity|].
  intros idx Hidx. simpl. now rewrite (project_in_bounds Hidx).
Qed.

Lemma elementwise_scalar_l f q b :
  exists r, elementwise f (scalar q) b = Ok r /\ shape r = shape b /\
    forall idx, in_bounds idx (shape b) -> item r idx = f q (item b idx).
Proof.
  unfold elementwise. simpl shape at 1. rewrite broadcast_shapes_nil_l.
  eexists; split; [reflexivity|]. split; [reflexivity|].
  intros idx Hidx. simpl. now rewrite (project_in_bounds Hidx).
Qed.

Lemma elementwise_scalar_r f a q :
  exists r, elementwise f a (scalar q) = Ok r /\ shape r = shape a /\
    forall idx, in_bounds idx (shape a) -> item r idx = f (item a idx) q.
Proof.
  unfold elementwise. simpl shape at 2. rewrite broadcast_shapes_nil_r.
  eexists; split; [reflexivity|]. split; [reflexivity|].
  intros idx Hidx. simpl. now rewrite (project_in_bounds Hidx).
Qed.

Lemma broadcast_to_same v target :
  shape v = target ->
  exists v', broadcast_to v target = Ok v' /\ shape v' = target /\
    forall idx, in_bounds idx target -> item v' idx = item v idx.
Proof.
  intros Hs. unfold broadcast_to. rewrite Hs, Nat.sub_diag. simpl strip_units.
  replace (strip_units target 0) with target by now destruct target.
  rewrite broadcast_shapes_refl.
  replace (shape_eqb target target) with true
    by (symmetry; now apply shape_eqb_eq).
  eexists; split; [reflexivity|]. split; [reflexivity|].
  intros idx Hidx. simpl. rewrite Nat.sub_diag. simpl.
  now rewrite (project_in_bounds Hidx).
Qed.

Lemma broadcast_to_shape v target v' :
  broadcast_to v target = Ok v' -> shape v' = target.
Proof.
  unfold broadcast_to.
  destruct (broadcast_shapes _ target) as [s'|]; [|discriminate].
  destruct (shape_eqb s' target); [|discriminate].
  intros H; injection H as <-. reflexivity.
Qed.

Lemma get_channel_3 a h w d i :
  shape a = [h; w; d] -> (i < d)%nat ->
  get_channel a i =
    Ok {| shape := [h; w];
          item := fun idx => item a (firstn 2 idx ++ i :: skipn 2 idx) |}.
Proof.
  intros Hs Hi. unfold get_channel. rewrite Hs.
  apply Nat.ltb_lt in Hi. now rewrite Hi.
Qed.

Lemma set_channel_3 a h w d i v :
  shape a = [h; w; d] -> (i < d)%nat ->
  set_channel a i v =
    match broadcast_to v [h; w] with
    | Ok v' => Ok (channel_update a i v')
    | Raise e => Raise e
    end.
Proof.
  intros Hs Hi. unfold set_channel. rewrite Hs.
  apply Nat.ltb_lt in Hi. rewrite Hi. reflexivity.
Qed.

(** ** Reasoning about runs *)

Lemma yields_ret {A} (a : A) st (P : A -> Prop) : P a -> yields (ret a) st P.
Proof. intros H. exists a, st. split; [reflexivity|assumption]. Qed.

Lemma yields_lift {A} (r : result A) a st (P : A -> Prop) :
  r = Ok a -> P a -> yields (lift r) st P.
Proof. intros -> H. exists a, st. split; [reflexivity|assumption]. Qed.

Lemma yields_bind {A B} (m : M A) (f : A -> M B) st (P : A -> Prop) (Q : B -> Prop) :
  yields m st P ->
  (forall a st', P a -> yields (f a) st' Q) ->
  yields (bind m f) st Q.
Proof.
  intros (a & st' & Hm & Ha) Hf.
  destruct (Hf a st' Ha) as (b & st'' & Hb & HQ).
  exists b, st''. unfold bind. rewrite Hm. auto.
Qed.

Lemma yields_bind_run {A B} (m : M A) (f : A -> M B) st a st' (Q : B -> Prop) :
  m st = Ok (a, st') -> yields (f a) st' Q -> yields (bind m f) st Q.
Proof.
  intros Hm (b & st'' & Hb & HQ). exists b, st''. unfold bind. rewrite Hm. auto.
Qed.

Lemma yields_bind_lift {A B} (r : result A) (f : A -> M B) st a (Q : B -> Prop) :
  r = Ok a -> yields (f a) st Q -> yields (bind (lift r) f) st Q.
Proof. intros ->. now apply yields_bind_run. Qed.

Lemma yields_weaken {A} (m : M A) st (P Q : A -> Prop) :
  yields m st P -> (forall a, P a -> Q a) -> yields m st Q.
Proof. intros (a & st' & Hm & Ha) H. exists a, st'. auto. Qed.

Lemma yields_for_range_from {A} (Inv : A -> Prop) (body : nat -> A -> M A) count :
  forall start acc st,
  (forall i a st', (start <= i < start + count)%nat -> Inv a ->
     yields (body i a) st' Inv) ->
  Inv acc ->
  yields (for_range_from start count body acc) st Inv.
Proof.
  induction count as [|k IH]; intros start acc st Hbody Hacc; simpl.
  - now apply yields_ret.
  - apply yields_bind with (P := Inv).
    + apply Hbody; [lia|assumption].
    + intros a st' Ha. apply IH; [|assumption].
      intros i a' st'' Hi. apply Hbody. lia.
Qed.

Lemma yields_for_range {A} (Inv : A -> Prop) (body : nat -> A -> M A) count acc st :
  (forall i a st', (i < count)%nat -> Inv a -> yields (body i a) st' Inv) ->
  Inv acc ->
  yields (for_range count body acc) st Inv.
Proof.
  intros Hbody Hacc. apply yields_for_range_from; [|assumption].
  intros i a st' Hi. apply Hbody. lia.
Qed.

(** ** The blend, line 27 of [mix] *)

Lemma blend_same_shape img1 img2 mask :
  shape img1 = shape mask -> shape img2 = shape mask ->
  exists r, blend img1 img2 mask = Ok r /\ shape r = shape mask /\
    forall idx, in_bounds idx (shape mask) ->
      item r idx = item img1 idx * (1 - item mask idx) + item img2 idx * item mask idx.
Proof.
  intros H1 H2. unfold blend, np_sub, np_mul, np_add.
  destruct (elementwise_scalar_l Qminus 1 mask) as (inv & -> & Hsi & Hinv).
  destruct (@elementwise_same Qmult img1 inv) as (lhs & -> & Hsl & Hlhs);
    [congruence|].
  destruct (@elementwise_same Qmult img2 mask H2) as (rhs & -> & Hsr & Hrhs).
  destruct (@elementwise_same Qplus lhs rhs) as (r & -> & Hs & Hr);
    [congruence|].
  exists r. split; [reflexivity|]. split; [congruence|].
  intros idx Hidx.
  rewrite Hr, Hlhs, Hrhs, Hinv by congruence. reflexivity.
Qed.

(** [blend] fails exactly when the three shapes do not broadcast together,
    and then with NumPy's [ValueError]. *)
Lemma blend_result img1 img2 mask :
  match blend_shape (shape img1) (shape img2) (shape mask) with
  | Some s => exists r, blend img1 img2 mask = Ok r /\ shape r = s
  | None => blend img1 img2 mask = Raise ValueError
  end.
Proof.
  unfold blend_shape, blend, np_sub, np_mul, np_add.
  destruct (elementwise_scalar_l Qminus 1 mask) as (inv & -> & Hsi & _).
  unfold elementwise. rewrite Hsi.
  destruct (broadcast_shapes (shape img1) (shape mask)) as [l|]; [|reflexivity].
  destruct (broadcast_shapes (shape img2) (shape mask)) as [r|]; [|reflexivity].
  simpl shape.
  destruct (broadcast_shapes l r) as [s|]; [|reflexivity].
  eexists. split; reflexivity.
Qed.

(** ** Channel slices *)

Lemma get_channel_same a h w d i :
  shape a = [h; w; d] -> (i < d)%nat ->
  exists ch, get_channel a i = Ok ch /\ shape ch = [h; w] /\
    forall r c, item ch [r; c] = item a [r; c; i].
Proof.
  intros Hs Hi. rewrite (get_channel_3 a Hs Hi).
  eexists; split; [reflexivity|]. split; reflexivity.
Qed.

Lemma channel_update_item a i v' r c k :
  item (channel_update a i v') [r; c; k] =
    if (k =? i)%nat then item v' [r; c] else item a [r; c; k].
Proof. reflexivity. Qed.

Lemma set_channel_same a h w d i v :
  shape a = [h; w; d] -> (i < d)%nat -> shape v = [h; w] ->
  exists a', set_channel a i v = Ok a' /\ shape a' = [h; w; d] /\
    forall r c k, (r < h)%nat -> (c < w)%nat ->
      item a' [r; c; k] = if (k =? i)%nat then item v [r; c] else item a [r; c; k].
Proof.
  intros Hs Hi Hv. rewrite (set_channel_3 a v Hs Hi).
  destruct (broadcast_to_same v Hv) as (v' & -> & Hsv' & Hv').
  eexists; split; [reflexivity|]. split; [exact Hs|].
  intros r c k Hr Hc. rewrite channel_update_item.
  destruct (k =? i)%nat; [|reflexivity].
  apply Hv'. now apply in_bounds2.
Qed.

(** ** The blend mask, lines 20 to 25 of [mix] *)

Section Mask.

Variable E : Env.

(** A mask is built exactly when [size] is not negative and the metaball
    field can be assigned to a [size x size] channel; its three channels
    are then that field. *)
Lemma mix_mask_inv size st mask st' :
  mix_mask E size st = Ok (mask, st') ->
  (0 <= size)%Z /\
  exists ball v',
    random_metaball E size size 4 (ball_size_at E st) (S st) = Ok (ball, st') /\
    broadcast_to ball [Z.to_nat size; Z.to_nat size] = Ok v' /\
    shape mask = [Z.to_nat size; Z.to_nat size; 3%nat] /\
    forall i j c, (i < Z.to_nat size)%nat -> (j < Z.to_nat size)%nat -> (c < 3)%nat ->
      item mask [i; j; c] = item v' [i; j].
Proof.
  unfold mix_mask, bind, lift, uniform, np_zeros, np_full, ball_size_at.
  simpl forallb. destruct (0 <=? size)%Z eqn:Hsize; simpl andb; [|discriminate].
  apply Z.leb_le in Hsize. cbv beta iota.
  destruct (random_metaball E size size 4 _ (S st))
    as [[ball st1]|e]; cbv beta iota; [|discriminate].
  set (n := Z.to_nat size).
  set (mask0 := {| shape := map Z.to_nat [size; size; 3%Z]; item := fun _ => 0 |}).
  assert (Hs0 : shape mask0 = [n; n; 3%nat]) by reflexivity.
  rewrite (set_channel_3 mask0 ball Hs0) by lia.
  destruct (broadcast_to ball [n; n]) as [v'|e] eqn:Hb; cbv beta iota; [|discriminate].
  assert (Hsv' : shape v' = [n; n]) by exact (broadcast_to_shape _ _ Hb).
  set (mask1 := channel_update mask0 0 v').
  assert (Hs1 : shape mask1 = [n; n; 3%nat]) by reflexivity.
  destruct (@get_channel_same mask1 n n 3 0 Hs1) as (c0 & -> & Hsc0 & Hc0); [lia|].
  destruct (@set_channel_same mask1 n n 3 1 c0 Hs1) as (mask2 & -> & Hs2 & Hm2);
    [lia|assumption|].
  destruct (@get_channel_same mask2 n n 3 0 Hs2) as (c0' & -> & Hsc0' & Hc0'); [lia|].
  destruct (@set_channel_same mask2 n n 3 2 c0' Hs2) as (mask3 & -> & Hs3 & Hm3);
    [lia|assumption|].
  cbv beta iota. intros H; injection H as <- <-.
  split; [assumption|].
  exists ball, v'. repeat split; try assumption.
  intros i j c Hi Hj Hc.
  rewrite Hm3, Hc0', !Hm2, Hc0 by assumption.
  unfold mask1. rewrite !channel_update_item.
  destruct c as [|[|[|c]]]; simpl; try reflexivity. lia.
Qed.

Lemma mix_mask_run size st ball st' :
  (0 <= size)%Z ->
  random_metaball E size size 4 (ball_size_at E st) (S st) = Ok (ball, st') ->
  shape ball = [Z.to_nat size; Z.to_nat size] ->
  exists mask, mix_mask E size st = Ok (mask, st') /\
    shape mask = [Z.to_nat size; Z.to_nat size; 3%nat] /\
    forall i j c, (i < Z.to_nat size)%nat -> (j < Z.to_nat size)%nat -> (c < 3)%nat ->
      item mask [i; j; c] = item ball [i; j].
Proof.
  intros Hsize Hball Hsb.
  unfold mix_mask, bind, lift, uniform, np_zeros. unfold ball_size_at in Hball.
  rewrite np_full_ok by (repeat constructor; lia).
  cbv beta iota. rewrite Hball.
  set (n := Z.to_nat size) in *.
  set (mask0 := {| shape := map Z.to_nat [size; size; 3%Z]; item := fun _ => 0 |}).
  assert (Hs0 : shape mask0 = [n; n; 3%nat]) by reflexivity.
  destruct (@set_channel_same mask0 n n 3 0 ball Hs0) as (mask1 & -> & Hs1 & Hm1);
    [lia|assumption|].
  destruct (@get_channel_same mask1 n n 3 0 Hs1) as (c0 & -> & Hsc0 & Hc0); [lia|].
  destruct (@set_channel_same mask1 n n 3 1 c0 Hs1) as (mask2 & -> & Hs2 & Hm2);
    [lia|assumption|].
  destruct (@get_channel_same mask2 n n 3 0 Hs2) as (c0' & -> & Hsc0' & Hc0'); [lia|].
  destruct (@set_channel_same mask2 n n 3 2 c0' Hs2) as (mask3 & -> & Hs3 & Hm3);
    [lia|assumption|].
  exists mask3. split; [reflexivity|]. split; [assumption|].
  intros i j c Hi Hj Hc.
  rewrite Hm3, Hc0', !Hm2, Hc0, !Hm1 by assumption.
  destruct c as [|[|[|c]]]; simpl; try reflexivity. lia.
Qed.

End Mask.

(** ** Bounds on the cells *)

Lemma cells_in_split lo hi a : cells_in lo hi a <-> cells_ge lo a /\ cells_le hi a.
Proof.
  unfold cells_in, cells_ge, cells_le. split.
  - intros H. split; intros idx Hidx; now apply H.
  - intros [Hl Hh] idx Hidx. split; auto.
Qed.

Lemma convex_ge lo a b m :
  0 <= m -> m <= 1 -> lo <= a -> lo <= b -> lo <= a * (1 - m) + b * m.
Proof. intros. nra. Qed.

Lemma convex_le hi a b m :
  0 <= m -> m <= 1 -> a <= hi -> b <= hi -> a * (1 - m) + b * m <= hi.
Proof. intros. nra. Qed.

Lemma scale_unit u x : 0 <= u -> u < 1 -> 0 <= x -> x <= 1 -> 0 <= u * x /\ u * x <= 1.
Proof. intros. split; nra. Qed.

Lemma scale_two x s : 0 <= x -> x <= 1 -> 0 <= s -> s < 2 -> 0 <= x * s /\ x * s <= 2.
Proof. intros. split; nra. Qed.

Section Bounds.

Variable E : Env.
Hypothesis E_ok : env_ok E.

Lemma uniform_range lo hi st :
  lo <= hi ->
  exists q, uniform E lo hi st = Ok (q, S st) /\ lo <= q /\ (lo < hi -> q < hi).
Proof.
  intros Hlh. destruct (sample_range E_ok st) as [H0 H1].
  eexists. split; [reflexivity|]. split; [nra|]. intros Hlt. nra.
Qed.

Lemma ball_size_pos st : 0 < ball_size_at E st.
Proof.
  unfold ball_size_at. destruct (sample_range E_ok st) as [H0 _]. nra.
Qed.

Lemma random_color_yields L st :
  (0 <= L)%Z ->
  yields (random_color E L) st
    (fun img => shape img = [Z.to_nat L; Z.to_nat L; 3%nat] /\ cells_in 0 1 img).
Proof.
  intros HL. unfold random_color, np_ones.
  rewrite np_full_ok by (repeat constructor; lia).
  set (n := Z.to_nat L).
  eapply yields_bind.
  - eapply yields_lift; [reflexivity|].
    instantiate (1 := fun img => shape img = [n; n; 3%nat] /\ cells_in 0 1 img).
    split; [reflexivity|]. intros idx _. simpl. split; lra.
  - intros img0 st0 Hinv0. apply yields_for_range; [|assumption].
    intros i img st1 Hi [Hs Hc].
    destruct (@uniform_range 0 1 st1) as (u & Hu & Hu0 & Hu1); [lra|].
    eapply yields_bind_run; [exact Hu|].
    destruct (@get_channel_same img n n 3 i Hs Hi) as (ch & Hch & Hsch & Hich).
    eapply yields_bind_lift; [exact Hch|].
    destruct (elementwise_scalar_l Qmult u ch) as (v & Hv & Hsv & Hiv).
    eapply yields_bind_lift; [exact Hv|].
    rewrite Hsch in Hsv, Hiv.
    destruct (@set_channel_same img n n 3 i v Hs Hi Hsv) as (img' & Himg' & Hs' & Hi').
    eapply yields_lift; [exact Himg'|]. split; [assumption|].
    intros idx Hidx. rewrite Hs' in Hidx.
    destruct (in_bounds3_inv Hidx) as (r & c & k & -> & Hr & Hcn & Hk).
    rewrite Hi' by assumption.
    destruct (k =? i)%nat.
    + rewrite Hiv by now apply in_bounds2. rewrite Hich.
      assert (Hin : in_bounds [r; c; i] (shape img))
        by (rewrite Hs; apply in_bounds3; auto).
      destruct (Hc _ Hin). apply scale_unit; auto. lra.
    + apply Hc. rewrite Hs. apply in_bounds3; auto.
Qed.

Lemma random_image_yields size st :
  (0 < size)%Z ->
  yields (random_image E size) st
    (fun img => shape img = [Z.to_nat size; Z.to_nat size; 3%nat] /\ cells_in 0 2 img).
Proof.
  intros Hsize. unfold random_image.
  destruct (@uniform_range 0 1 st) as (r & Hr & _); [lra|].
  eapply yields_bind_run; [exact Hr|].
  destruct (Qgt_bool r (1 # 2)).
  - eapply yields_weaken; [apply random_color_yields; lia|].
    intros img [Hs Hc]. split; [assumption|].
    intros idx Hidx. destruct (Hc idx Hidx). split; lra.
  - destruct (turbulence_rgb_ok E_ok (S st) Hsize) as (t & st1 & Ht & Hst & Hct).
    eapply yields_bind_run; [exact Ht|].
    destruct (@uniform_range 0 2 st1) as (s & Hs & Hs0 & Hs2); [lra|].
    eapply yields_bind_run; [exact Hs|].
    destruct (elementwise_scalar_r Qmult t s) as (v & Hv & Hsv & Hiv).
    eapply yields_lift; [exact Hv|]. split; [congruence|].
    intros idx Hidx. rewrite Hsv in Hidx. rewrite (Hiv _ Hidx).
    destruct (Hct _ Hidx). apply scale_two; auto. apply Hs2. lra.
Qed.

Lemma mix_mask_yields size st :
  (0 < size)%Z ->
  yields (mix_mask E size) st
    (fun mask => shape mask = [Z.to_nat size; Z.to_nat size; 3%nat] /\ cells_in 0 1 mask).
Proof.
  intros Hsize.
  destruct (@random_metaball_ok E E_ok size size 4 (ball_size_at E st) (S st))
    as (g & st1 & Hg & Hsg & Hcg); try lia; [apply ball_size_pos|].
  destruct (@mix_mask_run E size st g st1) as (mask & Hm & Hsm & Him);
    [lia|assumption|assumption|].
  exists mask, st1. split; [assumption|]. split; [assumption|].
  intros idx Hidx. rewrite Hsm in Hidx.
  destruct (in_bounds3_inv Hidx) as (i & j & c & -> & Hi & Hj & Hc).
  rewrite Him by assumption. apply Hcg. rewrite Hsg. now apply in_bounds2.
Qed.

Lemma blend_bounds img1 img2 mask :
  shape img1 = shape mask -> shape img2 = shape mask -> cells_in 0 1 mask ->
  exists r, blend img1 img2 mask = Ok r /\ shape r = shape mask /\
    (forall lo, cells_ge lo img1 -> cells_ge lo img2 -> cells_ge lo r) /\
    (forall hi, cells_le hi img1 -> cells_le hi img2 -> cells_le hi r).
Proof.
  intros H1 H2 Hm.
  destruct (blend_same_shape img1 img2 mask H1 H2) as (r & Hr & Hs & Hi).
  exists r. split; [assumption|]. split; [assumption|].
  split; intros b Hb1 Hb2 idx Hidx; rewrite Hs in Hidx; rewrite (Hi _ Hidx);
    destruct (Hm _ Hidx) as [Hm0 Hm1].
  - apply convex_ge; auto; [apply Hb1|apply Hb2]; congruence.
  - apply convex_le; auto; [apply Hb1|apply Hb2]; congruence.
Qed.

Lemma mix_yields img1 img2 size st :
  (0 < size)%Z ->
  shape img1 = [Z.to_nat size; Z.to_nat size; 3%nat] ->
  shape img2 = [Z.to_nat size; Z.to_nat size; 3%nat] ->
  yields (mix E img1 img2 size) st
    (fun r => shape r = [Z.to_nat size; Z.to_nat size; 3%nat] /\
       (forall lo, cells_ge lo img1 -> cells_ge lo img2 -> cells_ge lo r) /\
       (forall hi, cells_le hi img1 -> cells_le hi img2 -> cells_le hi r)).
Proof.
  intros Hsize H1 H2. unfold mix.
  eapply yields_bind; [apply mix_mask_yields; assumption|].
  intros mask st1 [Hsm Hcm]. cbv beta.
  destruct (@blend_bounds img1 img2 mask) as (r & Hr & Hs & Hge & Hle);
    [congruence|congruence|assumption|].
  eapply yields_lift; [exact Hr|]. split; [congruence|]. split; assumption.
Qed.

Lemma rand_background_yields N size st :
  (0 < size)%Z ->
  yields (rand_background E N size) st
    (fun img => shape img = [Z.to_nat size; Z.to_nat size; 3%nat] /\ cells_in 0 2 img).
Proof.
  intros Hsize. unfold rand_background.
  eapply yields_bind; [apply random_image_yields; assumption|].
  intros T st1 HT. cbv beta. apply yields_for_range; [|assumption].
  intros i acc st2 _ [Hsa Hca]. cbv beta.
  eapply yields_bind; [apply random_image_yields; assumption|].
  intros T2 st3 [Hs2 Hc2]. cbv beta.
  eapply yields_weaken; [apply mix_yields; assumption|].
  intros r (Hsr & Hge & Hle). split; [assumption|].
  apply cells_in_split. apply cells_in_split in Hca, Hc2. split.
  - apply Hge; tauto.
  - apply Hle; tauto.
Qed.

End Bounds.

(** ** Runs of [mix] *)

Lemma mix_run (E : Env) (img1 img2 : ndarray) (size : Z) (st : rng)
    (mask : ndarray) (st' : rng) :
  shape img1 = [Z.to_nat size; Z.to_nat size; 3%nat] ->
  shape img2 = [Z.to_nat size; Z.to_nat size; 3%nat] ->
  mix_mask E size st = Ok (mask, st') ->
  exists r,
    mix E img1 img2 size st = Ok (r, st') /\
    shape r = [Z.to_nat size; Z.to_nat size; 3%nat] /\
    forall i j c, (i < Z.to_nat size)%nat -> (j < Z.to_nat size)%nat -> (c < 3)%nat ->
      item r [i; j; c] =
        item img1 [i; j; c] * (1 - item mask [i; j; c])
        + item img2 [i; j; c] * item mask [i; j; c].
Proof.
  intros H1 H2 Hmask.
  destruct (mix_mask_inv _ _ _ Hmask) as (_ & _ & _ & _ & _ & Hsm & _).
  destruct (@blend_same_shape img1 img2 mask) as (r & Hr & Hs & Hi);
    [congruence|congruence|].
  exists r. unfold mix, bind, lift. rewrite Hmask, Hr.
  split; [reflexivity|]. split; [congruence|].
  intros i j c Hi' Hj Hc. apply Hi. rewrite Hsm. apply in_bounds3. auto.
Qed.


(** ** The concrete environments *)

Lemma flat_env_ok t m : 0 <= t -> t <= 1 -> 0 <= m -> m <= 1 -> env_ok (flat_env t m).
Proof.
  intros Ht0 Ht1 Hm0 Hm1. constructor.
  - intros [|st]; simpl; split; lra.
  - intros size st Hsize. eexists; eexists. split; [reflexivity|].
    split; [reflexivity|]. intros idx _. simpl. split; assumption.
  - intros w h count r st _ _ _ _. eexists; eexists. split; [reflexivity|].
    split; [reflexivity|]. intros idx _. simpl. split; assumption.
Qed.

Lemma demo_env_ok : env_ok demo_env.
Proof. apply flat_env_ok; lra. Qed.

(** Two runs: a solid colour takes one sample per channel, and a blend of
    the greys 1/3 and 2/3 under a mask of value 1/2 is the grey 1/2. *)
Example random_color_run :
  exists img,
    random_color demo_env 2 0%nat = Ok (img, 3%nat) /\
    shape img = [2; 2; 3]%nat /\
    item img [1; 0; 0]%nat == 1 # 4 /\
    item img [0; 1; 2]%nat == 3 # 4.
Proof.
  eexists. split; [vm_compute; reflexivity|].
  split; [reflexivity|]. split; reflexivity.
Qed.

Example mix_run_cell :
  exists r,
    mix demo_env (constant_grid [2; 2; 3]%nat (1 # 3))
        (constant_grid [2; 2; 3]%nat (2 # 3)) 2 0%nat = Ok (r, 2%nat) /\
    item r [1; 1; 2]%nat == 1 # 2.
Proof.
  eexists. split; [vm_compute; reflexivity|]. reflexivity.
Qed.

Lemma broadcast_300_200 n :
  blend_shape [300; 300; 3]%nat [200; 200; 3]%nat [n; n; 3%nat] = None.
Proof.
  unfold blend_shape, broadcast_shapes.
  cbn [rev app broadcast_rev option_map]. unfold broadcast_dim.
  destruct (Nat.eqb_spec 300 n) as [<-|H300]; [reflexivity|].
  destruct (Nat.eqb_spec 200 n) as [<-|H200]; [reflexivity|].
  destruct (Nat.eqb_spec n 1) as [->|H1]; reflexivity.
Qed.

Lemma built_mask_run m : mix_mask (flat_env (9 # 10) m) 2 0%nat = Ok (built_mask m, 2%nat).
Proof. reflexivity. Qed.

Lemma built_mask_cells m idx :
  in_bounds idx (shape (built_mask m)) -> item (built_mask m) idx = m.
Proof.
  intros H. destruct (in_bounds3_inv H) as (i & j & c & -> & _ & _ & Hc).
  destruct c as [|[|[|c]]]; [reflexivity ..|]. simpl in Hc. lia.
Qed.

(** ** Sums, means and windows *)

Lemma Qsum_ext l1 l2 : Forall2 Qeq l1 l2 -> Qsum l1 == Qsum l2.
Proof.
  intros H; induction H as [|x y l1 l2 Hxy _ IH]; [reflexivity|].
  cbn [Qsum fold_right]. fold (Qsum l1) (Qsum l2). now rewrite Hxy, IH.
Qed.

Lemma Qsum_red_correct l : Qsum_red l == Qsum l.
Proof.
  induction l as [|x l IH]; [reflexivity|].
  cbn [Qsum_red Qsum fold_right]. fold (Qsum_red l) (Qsum l).
  now rewrite Qred_correct, IH.
Qed.

Lemma mean_ext l1 l2 : Forall2 Qeq l1 l2 -> mean l1 == mean l2.
Proof.
  intros H. unfold mean. rewrite (Qsum_ext H).
  apply Forall2_length in H. now rewrite H.
Qed.

Lemma mean_red_correct l : mean_red l == mean l.
Proof. unfold mean_red, mean. now rewrite Qred_correct, Qsum_red_correct. Qed.

Lemma Forall2_map_l {A B} (R : B -> B -> Prop) (f g : A -> B) l :
  (forall x, R (f x) (g x)) -> Forall2 R (map f l) (map g l).
Proof. intros H; induction l; simpl; constructor; auto. Qed.

Lemma Forall2_map_both {A B} (R : A -> A -> Prop) (S : B -> B -> Prop) (f g : A -> B)
    l1 l2 :
  (forall x y, R x y -> S (f x) (g y)) ->
  Forall2 R l1 l2 -> Forall2 S (map f l1) (map g l2).
Proof. intros Hfg H; induction H; simpl; constructor; auto. Qed.

Lemma variance_red_correct a : variance_red a == variance a.
Proof.
  unfold variance_red, variance.
  assert (Hxs : Forall2 Qeq (map Qred (cells a)) (cells a)).
  { rewrite <- (map_id (cells a)) at 2.
    apply Forall2_map_l. intros x. apply Qred_correct. }
  assert (Hm : mean_red (map Qred (cells a)) == mean (cells a)).
  { rewrite mean_red_correct. now apply mean_ext. }
  rewrite mean_red_correct. apply mean_ext.
  eapply Forall2_map_both; [|exact Hxs].
  intros x y Hxy. cbv beta. rewrite Qred_correct, Hxy, Hm. reflexivity.
Qed.

Lemma Qsum_bounds lo hi l :
  (forall x, In x l -> lo <= x /\ x <= hi) ->
  inject_Z (Z.of_nat (length l)) * lo <= Qsum l /\
  Qsum l <= inject_Z (Z.of_nat (length l)) * hi.
Proof.
  induction l as [|x l IH]; intros H.
  - cbn [length Qsum fold_right]. change (inject_Z (Z.of_nat 0)) with 0. split; lra.
  - destruct (H x (or_introl eq_refl)) as [Hlo Hhi].
    destruct IH as [IHlo IHhi]; [intros y Hy; apply H; now right|].
    cbn [length Qsum fold_right]. fold (Qsum l).
    rewrite Nat2Z.inj_succ, <- Z.add_1_r, inject_Z_plus.
    change (inject_Z 1) with 1. split; lra.
Qed.

Lemma mean_bounds lo hi l :
  l <> [] ->
  (forall x, In x l -> lo <= x /\ x <= hi) ->
  lo <= mean l /\ mean l <= hi.
Proof.
  intros Hne H. destruct (@Qsum_bounds lo hi l H) as [Hlo Hhi].
  assert (Hlen : 0 < inject_Z (Z.of_nat (length l))).
  { change 0 with (inject_Z 0). rewrite <- Zlt_Qlt.
    destruct l; [congruence|]. simpl. lia. }
  unfold mean. split.
  - apply Qle_shift_div_l; [assumption|]. lra.
  - apply Qle_shift_div_r; [assumption|]. lra.
Qed.

Lemma window_In a i w n : In a (window i w n) -> (a < n)%nat.
Proof. unfold window. rewrite in_seq. lia. Qed.

Lemma window_nonempty i w n : (i < n)%nat -> window i w n <> [].
Proof.
  intros Hi H. apply (f_equal (@length nat)) in H.
  unfold window in H. rewrite length_seq in H. simpl in H. lia.
Qed.

Lemma neighbourhood_In n m w i j p :
  In p (neighbourhood [n; m] w i j) -> (fst p < n)%nat /\ (snd p < m)%nat.
Proof.
  destruct p as [a b]. unfold neighbourhood. simpl nth. rewrite in_prod_iff.
  intros [Ha Hb]. split; eapply window_In; eassumption.
Qed.

Lemma neighbourhood_nonempty n m w i j :
  (i < n)%nat -> (j < m)%nat -> neighbourhood [n; m] w i j <> [].
Proof.
  intros Hi Hj H. unfold neighbourhood in H. simpl nth in H.
  destruct (window i w n) as [|a la] eqn:Ha; [now apply (window_nonempty w Hi)|].
  destruct (window j w m) as [|b lb] eqn:Hb; [now apply (window_nonempty w Hj)|].
  simpl in H. discriminate.
Qed.

(** Every cell of the smoothed grid lies between the bounds of the grid. *)
Lemma box_smooth_cells_in noise w n m lo hi :
  shape noise = [n; m] -> cells_in lo hi noise -> cells_in lo hi (box_smooth noise w).
Proof.
  intros Hs Hc idx Hidx. simpl in Hidx. rewrite Hs in Hidx.
  apply in_bounds_length in Hidx as Hlen.
  destruct idx as [|i [|j [|k idx]]]; try discriminate.
  apply in_bounds2 in Hidx as [Hi Hj].
  cbn [box_smooth item]. rewrite Hs.
  apply mean_bounds.
  - intros H. apply map_eq_nil in H. revert H. now apply neighbourhood_nonempty.
  - intros x Hx. apply in_map_iff in Hx as (p & <- & Hp).
    apply neighbourhood_In in Hp as [Ha Hb].
    apply Hc. rewrite Hs. now apply in_bounds2.
Qed.

Lemma ramp_grid_cells : cells_in 0 1 ramp_grid.
Proof.
  assert (Hramp : Forall (fun q => 0 <= q /\ q <= 1) (0 :: ramp)).
  { unfold ramp. cbn [map]. repeat constructor; discriminate. }
  rewrite Forall_forall in Hramp.
  intros idx Hidx. simpl in Hidx. apply in_bounds_length in Hidx as Hlen.
  destruct idx as [|i [|j [|k idx]]]; try discriminate.
  cbn [ramp_grid item]. apply Hramp.
  destruct (nth_in_or_default j ramp 0) as [Hin|Hd]; [now right|left; now rewrite Hd].
Qed.

(** ** Rounded arithmetic: the error of a blend *)

Lemma Qabs_bound x B : Qabs x <= B <-> -B <= x /\ x <= B.
Proof. apply Qabs_Qle_condition. Qed.

Lemma mult_bounds a e K E :
  -K <= a -> a <= K -> -E <= e -> e <= E -> -(K * E) <= a * e /\ a * e <= K * E.
Proof. intros. split; nra. Qed.

Lemma rnd_bounds rnd u eta x B :
  rounding_error rnd u eta -> 0 <= u -> -B <= x -> x <= B ->
  - (u * B + eta) <= rnd x - x /\ rnd x - x <= u * B + eta.
Proof.
  intros Hrnd Hu Hlo Hhi. apply Qabs_bound.
  eapply Qle_trans; [apply Hrnd|].
  assert (HB : Qabs x <= B) by (apply Qabs_bound; split; assumption).
  assert (H : u * Qabs x <= u * B) by (clear - Hu HB; nra).
  lra.
Qed.

Lemma blend_cell_error rnd u eta a b m K :
  rounding_error rnd u eta -> 0 <= u -> u <= 1 # 8 -> 0 <= eta ->
  0 <= m -> m <= 1 -> -K <= a -> a <= K -> -K <= b -> b <= K ->
  Qabs (rnd (rnd (a * rnd (1 - m)) + rnd (b * m)) - (a * (1 - m) + b * m))
    <= (5 * u + 2 * eta) * K + 4 * eta.
Proof.
  intros Hrnd Hu Hu8 Heta Hm0 Hm1 Ha0 Ha1 Hb0 Hb1.
  assert (HK : 0 <= K) by lra.
  (* w = rnd (1 - m) *)
  destruct (@rnd_bounds rnd u eta (1 - m) 1 Hrnd Hu) as [H1l H1u]; try lra.
  remember (rnd (1 - m)) as w eqn:Ew. clear Ew.
  (* p = rnd (a * w) *)
  destruct (@mult_bounds a w K (1 + (u * 1 + eta)) Ha0 Ha1) as [Hawl Hawu]; try lra.
  destruct (@rnd_bounds rnd u eta (a * w) (K * (1 + (u * 1 + eta))) Hrnd Hu Hawl Hawu)
    as [H2l H2u].
  remember (rnd (a * w)) as p eqn:Ep. clear Ep.
  (* q = rnd (b * m) *)
  destruct (@mult_bounds b m K 1 Hb0 Hb1) as [Hbml Hbmu]; try lra.
  destruct (@rnd_bounds rnd u eta (b * m) (K * 1) Hrnd Hu Hbml Hbmu) as [H3l H3u].
  remember (rnd (b * m)) as q eqn:Eq. clear Eq.
  (* a * (w - (1 - m)) *)
  destruct (@mult_bounds a (w - (1 - m)) K (u * 1 + eta) Ha0 Ha1) as [H5l H5u];
    try lra.
  (* the exact blend *)
  pose proof (@convex_ge (-K) a b m Hm0 Hm1 Ha0 Hb0) as Hexl.
  pose proof (@convex_le K a b m Hm0 Hm1 Ha1 Hb1) as Hexu.
  (* monomials *)
  assert (HKu : 0 <= K * u) by (clear - HK Hu; nra).
  assert (HKe : 0 <= K * eta) by (clear - HK Heta; nra).
  assert (Hue : 0 <= u * eta /\ u * eta <= (1 # 8) * eta) by (clear - Hu Hu8 Heta; nra).
  assert (HKuu : 0 <= K * u * u /\ K * u * u <= (1 # 8) * (K * u))
    by (clear - HKu Hu Hu8; nra).
  assert (HKue : 0 <= K * u * eta /\ K * u * eta <= (1 # 8) * (K * eta))
    by (clear - HKe Hu Hu8; nra).
  assert (HKuuu : 0 <= K * u * u * u /\ K * u * u * u <= (1 # 8) * (K * u * u))
    by (clear - HKuu Hu Hu8; nra).
  assert (HKuue : 0 <= K * u * u * eta /\ K * u * u * eta <= (1 # 8) * (K * u * eta))
    by (clear - HKue Hu Hu8; nra).
  (* r = rnd (p + q) *)
  set (D := (u * (K * (1 + (u * 1 + eta))) + eta) + K * (u * 1 + eta) + (u * (K * 1) + eta)).
  assert (Hsl : -(K + D) <= p + q) by (unfold D; lra).
  assert (Hsu : p + q <= K + D) by (unfold D; lra).
  destruct (@rnd_bounds rnd u eta (p + q) (K + D) Hrnd Hu Hsl Hsu) as [H4l H4u].
  remember (rnd (p + q)) as r eqn:Er. clear Er.
  apply Qabs_bound. unfold D in *. split; lra.
Qed.

Lemma blend_rounded_same_shape rnd img1 img2 mask :
  shape img1 = shape mask -> shape img2 = shape mask ->
  exists r, blend_rounded rnd img1 img2 mask = Ok r /\ shape r = shape mask /\
    forall idx, in_bounds idx (shape mask) ->
      item r idx =
        rnd (rnd (item img1 idx * rnd (1 - item mask idx))
             + rnd (item img2 idx * item mask idx)).
Proof.
  intros H1 H2. unfold blend_rounded, np_sub, np_mul, np_add.
  destruct (elementwise_scalar_l Qminus 1 mask) as (inv & -> & Hsi & Hinv).
  destruct (@elementwise_same Qmult img1 (round_cells rnd inv))
    as (lhs & -> & Hsl & Hlhs); [simpl; congruence|].
  destruct (@elementwise_same Qmult img2 mask H2) as (rhs & -> & Hsr & Hrhs).
  destruct (@elementwise_same Qplus (round_cells rnd lhs) (round_cells rnd rhs))
    as (r & -> & Hs & Hr); [simpl; congruence|].
  eexists. split; [reflexivity|]. split; [simpl in *; congruence|].
  intros idx Hidx. cbn [round_cells item].
  rewrite Hr by (simpl; congruence). cbn [round_cells item].
  rewrite Hlhs, Hrhs by congruence. cbn [round_cells item].
  rewrite Hinv by assumption. reflexivity.
Qed.

Lemma blend_rounded_error rnd u eta img1 img2 mask :
  rounding_error rnd u eta -> 0 <= u -> u <= 1 # 8 -> 0 <= eta ->
  shape img1 = shape mask -> shape img2 = shape mask -> cells_in 0 1 mask ->
  exists r, blend_rounded rnd img1 img2 mask = Ok r /\ shape r = shape mask /\
    forall idx K, in_bounds idx (shape mask) ->
      Qabs (item img1 idx) <= K -> Qabs (item img2 idx) <= K ->
      Qabs (item r idx
            - (item img1 idx * (1 - item mask idx) + item img2 idx * item mask idx))
        <= (5 * u + 2 * eta) * K + 4 * eta.
Proof.
  intros Hrnd Hu Hu8 Heta H1 H2 Hm.
  destruct (@blend_rounded_same_shape rnd img1 img2 mask H1 H2) as (r & Hr & Hs & Hi).
  exists r. split; [assumption|]. split; [assumption|].
  intros idx K Hidx HK1 HK2. rewrite (Hi idx Hidx).
  destruct (Hm idx Hidx) as [Hm0 Hm1].
  apply Qabs_bound in HK1 as [? ?]. apply Qabs_bound in HK2 as [? ?].
  now apply blend_cell_error.
Qed.

(** The fixed-point rounding *)
Lemma round_to_scale k : 1 <= inject_Z (2 ^ Z.pos k).
Proof.
  change 1 with (inject_Z 1). rewrite <- Zle_Qle.
  pose proof (Z.pow_pos_nonneg 2 (Z.pos k)). lia.
Qed.

Lemma round_to_error k :
  rounding_error (round_to k) 0 ((1 # 2) / inject_Z (2 ^ Z.pos k)).
Proof.
  intros x. unfold round_to.
  pose proof (round_to_scale k) as Hs.
  set (s := inject_Z (2 ^ Z.pos k)) in *.
  pose proof (Qfloor_le (x * s + (1 # 2))) as Hle.
  pose proof (Qlt_floor (x * s + (1 # 2))) as Hlt.
  rewrite inject_Z_plus in Hlt. change (inject_Z 1) with 1 in Hlt.
  set (f := inject_Z (Qfloor (x * s + (1 # 2)))) in *.
  assert (Hfx : f / s - x == (f - x * s) / s) by (field; lra).
  rewrite Hfx. setoid_replace (0 * Qabs x + (1 # 2) / s) with ((1 # 2) / s) by ring.
  apply Qabs_bound. split.
  - setoid_replace (- ((1 # 2) / s)) with ((- (1 # 2)) / s) by (field; lra).
    apply Qmult_le_compat_r; [lra|]. apply Qlt_le_weak, Qinv_lt_0_compat. lra.
  - apply Qmult_le_compat_r; [lra|]. apply Qlt_le_weak, Qinv_lt_0_compat. lra.
Qed.

Lemma round_to_unit k : keeps_unit_interval (round_to k).
Proof.
  intros x Hx0 Hx1. unfold round_to.
  pose proof (round_to_scale k) as Hs.
  set (n := (2 ^ Z.pos k)%Z) in *.
  assert (H0 : (0 <= Qfloor (x * inject_Z n + (1 # 2)))%Z).
  { change 0%Z with (Qfloor 0). apply Qfloor_resp_le. nra. }
  assert (H1 : (Qfloor (x * inject_Z n + (1 # 2)) <= n)%Z).
  { rewrite <- (Qfloor_Z n) at 2.
    assert (Hlt : (Qfloor (x * inject_Z n + (1 # 2)) < Qfloor (inject_Z n) + 1)%Z).
    { apply Z.lt_succ_r. rewrite Qfloor_Z.
      assert (Hf : (Qfloor (x * inject_Z n + (1 # 2)) <= Qfloor (inject_Z n + (1 # 2)))%Z)
        by (apply Qfloor_resp_le; nra).
      assert (Hn : Qfloor (inject_Z n + (1 # 2)) = n).
      { symmetry. apply Z.le_antisymm.
        - rewrite <- (Qfloor_Z n) at 1. apply Qfloor_resp_le. lra.
        - apply Z.lt_succ_r. rewrite Zlt_Qlt.
          eapply Qle_lt_trans; [apply Qfloor_le|].
          rewrite <- Z.add_1_r, inject_Z_plus. change (inject_Z 1) with 1. lra. }
      lia. }
    lia. }
  rewrite Zle_Qle in H0, H1. change (inject_Z 0) with 0 in H0.
  split.
  - apply Qle_shift_div_l; [lra|]. lra.
  - apply Qle_shift_div_r; [lra|]. lra.
Qed.

Lemma built_mask_unit m : 0 <= m -> m <= 1 -> cells_in 0 1 (built_mask m).
Proof.
  intros H0 H1 idx Hidx. rewrite (@built_mask_cells m idx Hidx). split; assumption.
Qed.

(** ** The properties of the specification *)

(** C1, as stated, fails: with no blend layer, a turbulence base image of
    value 9/10 scaled by the draw [uniform(0, 2.0) = 3/2] has cells equal
    to 27/20, outside [[0,1]], although the environment meets its
    contracts. *)
Lemma rand_background_above_one :
  env_ok demo_env /\
  exists img st',
    rand_background demo_env 0 1 0%nat = Ok (img, st') /\
    shape img = [1; 1; 3]%nat /\
    item img [0; 0; 0]%nat == 27 # 20 /\
    ~ cells_in 0 1 img.
Proof.
  split; [exact demo_env_ok|].
  eexists; eexists. split; [vm_compute; reflexivity|].
  split; [reflexivity|]. split; [reflexivity|].
  intros H. destruct (H [0; 0; 0]%nat) as [_ Hle].
  - repeat constructor.
  - vm_compute in Hle. apply Hle. reflexivity.
Qed.

(** C1, amended: for every [layers >= 0] and every [size > 0],
    [rand_background(layers, size)] returns an image of shape
    [(size, size, 3)] in which every value lies in [[0,2]]; the bound is 2
    and not 1 because [random_image] scales the turbulence field by a draw
    of [uniform(0, 2.0)]. *)
Theorem rand_background_shape_range (E : Env) (N size : Z) (st : rng) :
  env_ok E -> (0 <= N)%Z -> (0 < size)%Z ->
  exists img st',
    rand_background E N size st = Ok (img, st') /\
    shape img = [Z.to_nat size; Z.to_nat size; 3%nat] /\
    cells_in 0 2 img.
Proof.
  intros HE _ Hsize. exact (rand_background_yields HE N st Hsize).
Qed.

Lemma rand_background_shape_range_witness :
  env_ok demo_env /\ (0 <= 3)%Z /\ (0 < 2)%Z /\
  exists img st',
    rand_background demo_env 3 2 0%nat = Ok (img, st') /\
    shape img = [2; 2; 3]%nat /\
    cells_in 0 2 img.
Proof.
  split; [exact demo_env_ok|]. split; [lia|]. split; [lia|].
  apply (@rand_background_shape_range demo_env 3 2 0%nat demo_env_ok); lia.
Defined.

(** C2: for images of the dimensions of the mask, [mix] returns at every
    pixel and every channel [img1*(1-mask) + img2*mask], where [mask] is
    the blend mask that it has built. *)
Theorem mix_formula (E : Env) (img1 img2 : ndarray) (size : Z) (st : rng)
    (mask : ndarray) (st' : rng) :
  shape img1 = [Z.to_nat size; Z.to_nat size; 3%nat] ->
  shape img2 = [Z.to_nat size; Z.to_nat size; 3%nat] ->
  mix_mask E size st = Ok (mask, st') ->
  exists r,
    mix E img1 img2 size st = Ok (r, st') /\
    shape r = [Z.to_nat size; Z.to_nat size; 3%nat] /\
    forall i j c, (i < Z.to_nat size)%nat -> (j < Z.to_nat size)%nat -> (c < 3)%nat ->
      item r [i; j; c] ==
        item img1 [i; j; c] * (1 - item mask [i; j; c])
        + item img2 [i; j; c] * item mask [i; j; c].
Proof.
  intros H1 H2 Hmask.
  destruct (@mix_run E img1 img2 size st mask st' H1 H2 Hmask) as (r & Hr & Hs & Hi).
  exists r. split; [assumption|]. split; [assumption|].
  intros i j c Hi' Hj Hc. now rewrite Hi.
Qed.

Lemma mix_formula_witness :
  exists mask st',
    mix_mask demo_env 2 0%nat = Ok (mask, st') /\
    exists r,
      mix demo_env (constant_grid [2; 2; 3]%nat (1 # 3))
          (constant_grid [2; 2; 3]%nat (2 # 3)) 2 0%nat = Ok (r, st') /\
      shape r = [2; 2; 3]%nat /\
      forall i j c, (i < 2)%nat -> (j < 2)%nat -> (c < 3)%nat ->
        item r [i; j; c] ==
          (1 # 3) * (1 - item mask [i; j; c]) + (2 # 3) * item mask [i; j; c].
Proof.
  eexists; eexists. split; [vm_compute; reflexivity|].
  apply (@mix_formula demo_env (constant_grid [2; 2; 3]%nat (1 # 3))
           (constant_grid [2; 2; 3]%nat (2 # 3)) 2 0%nat);
    vm_compute; reflexivity.
Defined.

(** C3: with [layers == 0], [rand_background] returns the base image that
    [random_image] draws, in the same generator state: no blend is applied. *)
Theorem rand_background_zero_layers (E : Env) (size : Z) (st : rng) :
  rand_background E 0 size st = random_image E size st.
Proof.
  unfold rand_background, bind. simpl.
  destruct (random_image E size st) as [[T st']|e]; reflexivity.
Qed.

(** C4, as stated, fails: images of unequal dimensions that broadcast
    (1 x 1 x 3 against 2 x 2 x 3, with a 2 x 2 x 3 mask) are blended and no
    exception is raised. *)
Lemma mix_broadcasts_unequal_images :
  exists r st',
    mix demo_env (constant_grid [1; 1; 3]%nat (1 # 3))
        (constant_grid [2; 2; 3]%nat (2 # 3)) 2 0%nat = Ok (r, st') /\
    shape r = [2; 2; 3]%nat.
Proof.
  eexists; eexists. split; [vm_compute; reflexivity|]. reflexivity.
Qed.

(** C4, amended: [mix] makes no dimension check of its own and never raises
    [DimensionMismatchError]; once the mask is built, it fails exactly when
    the shapes of the two images and of the mask do not broadcast together,
    and the exception is NumPy's [ValueError]; in particular a
    300 x 300 x 3 image and a 200 x 200 x 3 image make it fail so. *)
Theorem mix_shape_mismatch (E : Env) (img1 img2 : ndarray) (size : Z) (st : rng)
    (mask : ndarray) (st' : rng) :
  mix_mask E size st = Ok (mask, st') ->
  mix E img1 img2 size st <> Raise DimensionMismatchError /\
  (mix E img1 img2 size st = Raise ValueError <->
   blend_shape (shape img1) (shape img2) (shape mask) = None) /\
  (forall s, blend_shape (shape img1) (shape img2) (shape mask) = Some s ->
     exists r, mix E img1 img2 size st = Ok (r, st') /\ shape r = s) /\
  (shape img1 = [300; 300; 3]%nat -> shape img2 = [200; 200; 3]%nat ->
   mix E img1 img2 size st = Raise ValueError).
Proof.
  intros Hmask.
  destruct (mix_mask_inv _ _ _ Hmask) as (_ & _ & _ & _ & _ & Hsm & _).
  assert (Hmix : mix E img1 img2 size st =
                 match blend img1 img2 mask with
                 | Ok r => Ok (r, st')
                 | Raise e => Raise e
                 end).
  { unfold mix, bind, lift. now rewrite Hmask. }
  pose proof (blend_result img1 img2 mask) as Hb.
  destruct (blend_shape (shape img1) (shape img2) (shape mask)) as [s|] eqn:Hbs.
  - destruct Hb as (r & Hr & Hs). rewrite Hmix, Hr.
    split; [discriminate|]. split; [split; discriminate|].
    split.
    + intros s' Hs'. injection Hs' as <-. exists r. auto.
    + intros H1 H2. rewrite H1, H2, Hsm, broadcast_300_200 in Hbs. discriminate.
  - rewrite Hmix, Hb.
    split; [discriminate|]. split; [split; reflexivity|].
    split; [discriminate|reflexivity].
Qed.

Lemma mix_shape_mismatch_witness :
  exists mask st',
    mix_mask demo_env 300 0%nat = Ok (mask, st') /\
    mix demo_env (constant_grid [300; 300; 3]%nat (1 # 3))
        (constant_grid [200; 200; 3]%nat (2 # 3)) 300 0%nat = Raise ValueError.
Proof.
  eexists; eexists. split; [vm_compute; reflexivity|].
  refine (proj2 (proj2 (proj2
    (@mix_shape_mismatch demo_env (constant_grid [300; 300; 3]%nat (1 # 3))
       (constant_grid [200; 200; 3]%nat (2 # 3)) 300 0%nat _ _ _))) _ _);
    vm_compute; reflexivity.
Defined.

(** C5, as stated, fails: on binary64 floats, line 27 at a cell of value
    0.1 blended with itself under the mask value 0.2 returns
    0.10000000000000002, which is not 0.1. *)
Lemma blend_binary64_not_idempotent :
  Binary64.blend_cell Binary64.tenth Binary64.tenth Binary64.fifth
    = Binary64.above_tenth /\
  PrimFloat.eqb
    (Binary64.blend_cell Binary64.tenth Binary64.tenth Binary64.fifth)
    Binary64.tenth = false.
Proof. split; vm_compute; reflexivity. Qed.

(** C5, amended: blending an image with itself returns the image up to
    rounding. For every image [A] and every mask of its shape, the result
    is exactly [A] when the arithmetic is exact; when every operation has
    a relative error of at most [u <= 1/8] and an absolute error of at
    most [eta] (binary64: [u = 2^-53], [eta = 2^-1075]) and the mask has
    its values in [[0,1]], every cell of the result differs from the cell
    of [A] by at most [(5u + 2 eta) |A| + 4 eta]. *)
Theorem blend_same_image_rounded (rnd : Q -> Q) (A mask : ndarray) :
  shape mask = shape A ->
  exists r,
    blend_rounded rnd A A mask = Ok r /\
    shape r = shape A /\
    ((forall x, rnd x == x) -> array_eq r A) /\
    (forall u eta,
       rounding_error rnd u eta -> 0 <= u -> u <= 1 # 8 -> 0 <= eta ->
       cells_in 0 1 mask ->
       forall idx, in_bounds idx (shape A) ->
         Qabs (item r idx - item A idx)
           <= (5 * u + 2 * eta) * Qabs (item A idx) + 4 * eta).
Proof.
  intros Hs.
  destruct (@blend_rounded_same_shape rnd A A mask) as (r & Hr & Hsr & Hi);
    try congruence.
  exists r. split; [assumption|]. split; [congruence|]. split.
  - intros Hid. split; [congruence|].
    intros idx Hidx. rewrite Hi by congruence.
    rewrite !Hid. ring.
  - intros u eta Hrnd Hu Hu8 Heta Hm idx Hidx.
    rewrite Hi by congruence.
    destruct (Hm idx) as [Hm0 Hm1]; [congruence|].
    setoid_replace (item A idx)
      with (item A idx * (1 - item mask idx) + item A idx * item mask idx) at 3
      by ring.
    pose proof (Qle_refl (Qabs (item A idx))) as HK.
    apply Qabs_bound in HK as [HKl HKu].
    now apply blend_cell_error.
Qed.

Lemma blend_same_image_rounded_witness :
  (exists r,
     blend_rounded (fun x => x) (constant_grid [2; 2; 3]%nat (1 # 3))
       (constant_grid [2; 2; 3]%nat (1 # 3)) (built_mask (3 # 2)) = Ok r /\
     array_eq r (constant_grid [2; 2; 3]%nat (1 # 3))) /\
  (exists r,
     blend_rounded (round_to 10) (constant_grid [2; 2; 3]%nat (1 # 3))
       (constant_grid [2; 2; 3]%nat (1 # 3)) (built_mask (1 # 4)) = Ok r /\
     forall idx, in_bounds idx [2; 2; 3]%nat ->
       Qabs (item r idx - (1 # 3))
         <= (5 * 0 + 2 * ((1 # 2) / inject_Z (2 ^ 10))) * Qabs (1 # 3)
            + 4 * ((1 # 2) / inject_Z (2 ^ 10))).
Proof.
  split.
  - destruct (@blend_same_image_rounded (fun x => x)
                (constant_grid [2; 2; 3]%nat (1 # 3)) (built_mask (3 # 2)) eq_refl)
      as (r & Hr & _ & Hexact & _).
    exists r. split; [exact Hr|]. apply Hexact. intros x. reflexivity.
  - destruct (@blend_same_image_rounded (round_to 10)
                (constant_grid [2; 2; 3]%nat (1 # 3)) (built_mask (1 # 4)) eq_refl)
      as (r & Hr & _ & _ & Hbound).
    exists r. split; [exact Hr|].
    apply (Hbound 0 ((1 # 2) / inject_Z (2 ^ 10))).
    + apply round_to_error.
    + lra.
    + lra.
    + vm_compute. discriminate.
    + apply built_mask_unit; lra.
Defined.

(** C6: for images [A] and [B] of the same shape, the blend with a mask of
    zeros equals [A] and the blend with a mask of ones equals [B]: for
    [blend] with such masks, and for [mix] whenever the mask that it builds
    is one of them. *)
Theorem mix_mask_extremes (A B zero_mask one_mask : ndarray) :
  shape B = shape A -> shape zero_mask = shape A -> shape one_mask = shape A ->
  (forall idx, in_bounds idx (shape A) -> item zero_mask idx == 0) ->
  (forall idx, in_bounds idx (shape A) -> item one_mask idx == 1) ->
  (exists r, blend A B zero_mask = Ok r /\ array_eq r A) /\
  (exists r, blend A B one_mask = Ok r /\ array_eq r B) /\
  (forall E size st st', mix_mask E size st = Ok (zero_mask, st') ->
     exists r, mix E A B size st = Ok (r, st') /\ array_eq r A) /\
  (forall E size st st', mix_mask E size st = Ok (one_mask, st') ->
     exists r, mix E A B size st = Ok (r, st') /\ array_eq r B).
Proof.
  intros HB Hz Ho Hzero Hone.
  assert (Hb0 : exists r, blend A B zero_mask = Ok r /\ array_eq r A).
  { destruct (@blend_same_shape A B zero_mask) as (r & Hr & Hsr & Hi); try congruence.
    exists r. split; [assumption|]. split; [congruence|].
    intros idx Hidx. rewrite Hi by congruence. rewrite (Hzero _ Hidx). ring. }
  assert (Hb1 : exists r, blend A B one_mask = Ok r /\ array_eq r B).
  { destruct (@blend_same_shape A B one_mask) as (r & Hr & Hsr & Hi); try congruence.
    exists r. split; [assumption|]. split; [congruence|].
    intros idx Hidx. rewrite HB in Hidx. rewrite Hi by congruence.
    rewrite (Hone _ Hidx). ring. }
  split; [assumption|]. split; [assumption|].
  split; intros E size st st' Hmask.
  - destruct Hb0 as (r & Hr & Heq). exists r.
    unfold mix, bind, lift. rewrite Hmask, Hr. auto.
  - destruct Hb1 as (r & Hr & Heq). exists r.
    unfold mix, bind, lift. rewrite Hmask, Hr. auto.
Qed.

Lemma mix_mask_extremes_witness :
  (exists r, blend (constant_grid [2; 2; 3]%nat (1 # 3))
               (constant_grid [2; 2; 3]%nat (2 # 3)) (built_mask 0) = Ok r /\
             array_eq r (constant_grid [2; 2; 3]%nat (1 # 3))) /\
  (exists r, blend (constant_grid [2; 2; 3]%nat (1 # 3))
               (constant_grid [2; 2; 3]%nat (2 # 3)) (built_mask 1) = Ok r /\
             array_eq r (constant_grid [2; 2; 3]%nat (2 # 3))) /\
  (exists r, mix (flat_env (9 # 10) 0) (constant_grid [2; 2; 3]%nat (1 # 3))
               (constant_grid [2; 2; 3]%nat (2 # 3)) 2 0%nat = Ok (r, 2%nat) /\
             array_eq r (constant_grid [2; 2; 3]%nat (1 # 3))) /\
  (exists r, mix (flat_env (9 # 10) 1) (constant_grid [2; 2; 3]%nat (1 # 3))
               (constant_grid [2; 2; 3]%nat (2 # 3)) 2 0%nat = Ok (r, 2%nat) /\
             array_eq r (constant_grid [2; 2; 3]%nat (2 # 3))).
Proof.
  destruct (@mix_mask_extremes (constant_grid [2; 2; 3]%nat (1 # 3))
              (constant_grid [2; 2; 3]%nat (2 # 3)) (built_mask 0) (built_mask 1)
              eq_refl eq_refl eq_refl)
    as (H0 & H1 & Hm0 & Hm1).
  - intros idx Hidx. rewrite (@built_mask_cells 0 idx Hidx). reflexivity.
  - intros idx Hidx. rewrite (@built_mask_cells 1 idx Hidx). reflexivity.
  - split; [exact H0|]. split; [exact H1|]. split.
    + exact (Hm0 (flat_env (9 # 10) 0) 2%Z 0%nat 2%nat (built_mask_run 0)).
    + exact (Hm1 (flat_env (9 # 10) 1) 2%Z 0%nat 2%nat (built_mask_run 1)).
Defined.

(** C7: for every [size > 0], [generate_noise(size)] returns a grid of
    shape [size x size] with every value in [[0,1]]; for every [size <= 0]
    it fails with [InvalidDimensionError]. *)
Theorem generate_noise_spec (E : Env) (size : Z) (st : rng) :
  (forall k, 0 <= random_sample E k /\ random_sample E k < 1) ->
  ((0 < size)%Z ->
     exists g st', generate_noise E size st = Ok (g, st') /\
       shape g = [Z.to_nat size; Z.to_nat size] /\ cells_in 0 1 g) /\
  ((size <= 0)%Z -> generate_noise E size st = Raise InvalidDimensionError).
Proof.
  intros Hsample. unfold generate_noise. split; intros Hsize.
  - destruct (Z.leb_spec size 0) as [Hle|_]; [lia|].
    eexists; eexists. split; [reflexivity|]. split; [reflexivity|].
    intros idx Hidx. simpl in Hidx.
    apply in_bounds_length in Hidx as Hlen.
    destruct idx as [|i [|j [|k idx]]]; try discriminate. simpl.
    destruct (Hsample (st + i * Z.to_nat size + j)%nat). split; lra.
  - destruct (Z.leb_spec size 0) as [_|Hgt]; [reflexivity|lia].
Qed.

Lemma generate_noise_spec_witness :
  (exists g st', generate_noise demo_env 4 0%nat = Ok (g, st') /\
     shape g = [4; 4]%nat /\ cells_in 0 1 g) /\
  generate_noise demo_env 0 0%nat = Raise InvalidDimensionError /\
  generate_noise demo_env (-3) 0%nat = Raise InvalidDimensionError.
Proof.
  split; [|split].
  - apply (@generate_noise_spec demo_env 4 0%nat (sample_range demo_env_ok)). lia.
  - apply (@generate_noise_spec demo_env 0 0%nat (sample_range demo_env_ok)). lia.
  - apply (@generate_noise_spec demo_env (-3) 0%nat (sample_range demo_env_ok)). lia.
Defined.

(** The variance of the equal-weight truncated average can exceed that of
    the grid: on a 30 x 30 grid with values in [[0,1]] and with window 1,
    the averages over the truncated neighbourhoods at the border weigh the
    second and the last but one column more than the others. *)
Lemma box_smooth_raises_variance :
  shape ramp_grid = [30; 30]%nat /\
  cells_in 0 1 ramp_grid /\
  (1 <= 1)%nat /\
  variance ramp_grid == 4207 # 50460 /\
  variance (box_smooth ramp_grid 1) == 37879 # 454140 /\
  ~ variance (box_smooth ramp_grid 1) <= variance ramp_grid.
Proof.
  split; [reflexivity|]. split; [exact ramp_grid_cells|]. split; [lia|].
  assert (H1 : variance ramp_grid == 4207 # 50460).
  { rewrite <- variance_red_correct. vm_compute. reflexivity. }
  assert (H2 : variance (box_smooth ramp_grid 1) == 37879 # 454140).
  { rewrite <- variance_red_correct. vm_compute. reflexivity. }
  split; [assumption|]. split; [assumption|].
  rewrite H1, H2. intros H. vm_compute in H. apply H. reflexivity.
Qed.

(** The equal-weight truncated average keeps the shape of the grid and
    every lower and upper bound of its values. *)
Lemma box_smooth_shape_range (noise : ndarray) (w n : nat) :
  shape noise = [n; n] ->
  shape (box_smooth noise w) = [n; n] /\
  (forall lo hi, cells_in lo hi noise -> cells_in lo hi (box_smooth noise w)).
Proof.
  intros Hs. split; [exact Hs|].
  intros lo hi Hlh. exact (box_smooth_cells_in w Hs Hlh).
Qed.

(** C9: for every [layers >= 0] and every [size > 0], every value of the
    image that [rand_background] returns is at least 0; the solid colour
    draw, the draw of [random_image] and each blend of [mix] keep the cells
    non-negative. *)
Theorem rand_background_nonneg (E : Env) (N size : Z) (st : rng) :
  env_ok E -> (0 <= N)%Z -> (0 < size)%Z ->
  (exists img st', random_color E size st = Ok (img, st') /\ cells_ge 0 img) /\
  (exists img st', random_image E size st = Ok (img, st') /\ cells_ge 0 img) /\
  (forall img1 img2,
     shape img1 = [Z.to_nat size; Z.to_nat size; 3%nat] ->
     shape img2 = [Z.to_nat size; Z.to_nat size; 3%nat] ->
     cells_ge 0 img1 -> cells_ge 0 img2 ->
     exists r st', mix E img1 img2 size st = Ok (r, st') /\ cells_ge 0 r) /\
  (exists img st', rand_background E N size st = Ok (img, st') /\ cells_ge 0 img).
Proof.
  intros HE _ Hsize. repeat split.
  - destruct (@random_color_yields E HE size st) as (img & st' & Hr & _ & Hc); [lia|].
    exists img, st'. split; [assumption|]. now apply cells_in_split in Hc.
  - destruct (random_image_yields HE st Hsize) as (img & st' & Hr & _ & Hc).
    exists img, st'. split; [assumption|]. now apply cells_in_split in Hc.
  - intros img1 img2 H1 H2 Hc1 Hc2.
    destruct (@mix_yields E HE img1 img2 size st Hsize H1 H2)
      as (r & st' & Hr & _ & Hge & _).
    exists r, st'. auto.
  - destruct (rand_background_yields HE N st Hsize) as (img & st' & Hr & _ & Hc).
    exists img, st'. split; [assumption|]. now apply cells_in_split in Hc.
Qed.

Lemma rand_background_nonneg_witness :
  env_ok demo_env /\ (0 <= 3)%Z /\ (0 < 2)%Z /\
  exists img st', rand_background demo_env 3 2 0%nat = Ok (img, st') /\ cells_ge 0 img.
Proof.
  split; [exact demo_env_ok|]. split; [lia|]. split; [lia|].
  apply (@rand_background_nonneg demo_env 3 2 0%nat demo_env_ok); lia.
Defined.

(** C10: every mask that [mix] builds has three identical channels, each
    one the metaball field assigned to channel 0, so that at every pixel
    the three colour channels are interpolated with the same weight. *)
Theorem mix_mask_channels (E : Env) (size : Z) (st : rng) (mask : ndarray) (st' : rng) :
  mix_mask E size st = Ok (mask, st') ->
  (exists ball field,
     random_metaball E size size 4 (ball_size_at E st) (S st) = Ok (ball, st') /\
     broadcast_to ball [Z.to_nat size; Z.to_nat size] = Ok field /\
     forall i j c, (i < Z.to_nat size)%nat -> (j < Z.to_nat size)%nat -> (c < 3)%nat ->
       item mask [i; j; c] = item field [i; j]) /\
  (forall i j c, (i < Z.to_nat size)%nat -> (j < Z.to_nat size)%nat -> (c < 3)%nat ->
     item mask [i; j; c] = item mask [i; j; 0%nat]) /\
  (forall img1 img2,
     shape img1 = [Z.to_nat size; Z.to_nat size; 3%nat] ->
     shape img2 = [Z.to_nat size; Z.to_nat size; 3%nat] ->
     exists r, mix E img1 img2 size st = Ok (r, st') /\
       forall i j c, (i < Z.to_nat size)%nat -> (j < Z.to_nat size)%nat -> (c < 3)%nat ->
         item r [i; j; c] ==
           item img1 [i; j; c] * (1 - item mask [i; j; 0%nat])
           + item img2 [i; j; c] * item mask [i; j; 0%nat]).
Proof.
  intros Hmask.
  destruct (mix_mask_inv _ _ _ Hmask) as (_ & ball & field & Hball & Hfield & Hsm & Hi).
  assert (Hsame : forall i j c,
            (i < Z.to_nat size)%nat -> (j < Z.to_nat size)%nat -> (c < 3)%nat ->
            item mask [i; j; c] = item mask [i; j; 0%nat]).
  { intros i j c Hi' Hj Hc. rewrite (Hi i j c), (Hi i j 0%nat); auto; lia. }
  split; [exists ball, field; auto|]. split; [assumption|].
  intros img1 img2 H1 H2.
  destruct (@mix_run E img1 img2 size st mask st' H1 H2 Hmask) as (r & Hr & _ & Hir).
  exists r. split; [assumption|].
  intros i j c Hi' Hj Hc. rewrite Hir by assumption.
  rewrite (Hsame i j c) by assumption. reflexivity.
Qed.

Lemma mix_mask_channels_witness :
  exists mask st',
    mix_mask demo_env 2 0%nat = Ok (mask, st') /\
    forall i j c, (i < 2)%nat -> (j < 2)%nat -> (c < 3)%nat ->
      item mask [i; j; c] = item mask [i; j; 0%nat].
Proof.
  eexists; eexists. split; [vm_compute; reflexivity|].
  refine (proj1 (proj2 (@mix_mask_channels demo_env 2 0%nat _ _ _))).
  vm_compute; reflexivity.
Defined.

(** ** Further properties of the compositor *)

Lemma random_color_run_gen (E : Env) (L : Z) (st : rng) :
  (0 <= L)%Z ->
  exists img,
    random_color E L st = Ok (img, (3 + st)%nat) /\
    shape img = [Z.to_nat L; Z.to_nat L; 3%nat] /\
    forall i j c, (i < Z.to_nat L)%nat -> (j < Z.to_nat L)%nat -> (c < 3)%nat ->
      item img [i; j; c] == random_sample E (c + st)%nat.
Proof.
  intros HL. unfold random_color, np_ones.
  rewrite np_full_ok by (repeat constructor; lia).
  set (n := Z.to_nat L).
  set (img0 := {| shape := map Z.to_nat [L; L; 3%Z]; item := fun _ => 1 |}).
  assert (Hs0 : shape img0 = [n; n; 3%nat]) by reflexivity.
  unfold for_range. cbn [for_range_from]. unfold bind, lift, uniform, ret, np_mul.
  destruct (@get_channel_same img0 n n 3 0 Hs0) as (ch0 & -> & Hsch0 & Hch0); [lia|].
  destruct (elementwise_scalar_l Qmult (0 + (1 - 0) * random_sample E st) ch0)
    as (v0 & -> & Hsv0 & Hv0).
  rewrite Hsch0 in Hsv0, Hv0.
  destruct (@set_channel_same img0 n n 3 0 v0 Hs0) as (img1 & -> & Hs1 & Hi1);
    [lia|assumption|].
  destruct (@get_channel_same img1 n n 3 1 Hs1) as (ch1 & -> & Hsch1 & Hch1); [lia|].
  destruct (elementwise_scalar_l Qmult (0 + (1 - 0) * random_sample E (S st)) ch1)
    as (v1 & -> & Hsv1 & Hv1).
  rewrite Hsch1 in Hsv1, Hv1.
  destruct (@set_channel_same img1 n n 3 1 v1 Hs1) as (img2 & -> & Hs2 & Hi2);
    [lia|assumption|].
  destruct (@get_channel_same img2 n n 3 2 Hs2) as (ch2 & -> & Hsch2 & Hch2); [lia|].
  destruct (elementwise_scalar_l Qmult (0 + (1 - 0) * random_sample E (S (S st))) ch2)
    as (v2 & -> & Hsv2 & Hv2).
  rewrite Hsch2 in Hsv2, Hv2.
  destruct (@set_channel_same img2 n n 3 2 v2 Hs2) as (img3 & -> & Hs3 & Hi3);
    [lia|assumption|].
  exists img3. split; [reflexivity|]. split; [assumption|].
  intros i j c Hi Hj Hc.
  assert (Hij : in_bounds [i; j] [n; n]) by now apply in_bounds2.
  rewrite Hi3 by assumption.
  destruct c as [|[|[|c]]]; cbn [Nat.eqb]; [| | |lia].
  - rewrite Hi2 by assumption. cbn [Nat.eqb].
    rewrite Hi1 by assumption. cbn [Nat.eqb].
    rewrite Hv0 by assumption. rewrite Hch0.
    change (item img0 [i; j; 0%nat]) with 1. cbn [Nat.add]. ring.
  - rewrite Hi2 by assumption. cbn [Nat.eqb].
    rewrite Hv1 by assumption. rewrite Hch1.
    rewrite Hi1 by assumption. cbn [Nat.eqb].
    change (item img0 [i; j; 1%nat]) with 1. cbn [Nat.add]. ring.
  - rewrite Hv2 by assumption. rewrite Hch2.
    rewrite Hi2 by assumption. cbn [Nat.eqb].
    rewrite Hi1 by assumption. cbn [Nat.eqb].
    change (item img0 [i; j; 2%nat]) with 1. cbn [Nat.add]. ring.
Qed.

Lemma random_color_negative (E : Env) (L : Z) (st : rng) :
  (L < 0)%Z -> random_color E L st = Raise ValueError.
Proof.
  intros HL. unfold random_color, np_ones, np_full, bind, lift.
  cbn [forallb]. destruct (Z.leb_spec 0 L) as [H|_]; [lia|]. reflexivity.
Qed.

(** X1: for [L >= 0], [random_color(L)] draws exactly three samples and
    returns an [L x L x 3] image that is a solid colour: at every pixel,
    channel [c] holds the [c]-th of the three samples; for [L < 0] it
    raises [ValueError]. *)
Theorem random_color_solid (E : Env) (L : Z) (st : rng) :
  ((0 <= L)%Z ->
   exists img,
     random_color E L st = Ok (img, (3 + st)%nat) /\
     shape img = [Z.to_nat L; Z.to_nat L; 3%nat] /\
     forall i j c, (i < Z.to_nat L)%nat -> (j < Z.to_nat L)%nat -> (c < 3)%nat ->
       item img [i; j; c] == random_sample E (c + st)%nat) /\
  ((L < 0)%Z -> random_color E L st = Raise ValueError).
Proof.
  split; [apply random_color_run_gen|apply random_color_negative].
Qed.

Lemma random_color_solid_witness :
  (exists img,
     random_color demo_env 2 0%nat = Ok (img, 3%nat) /\
     shape img = [2; 2; 3]%nat /\
     forall i j c, (i < 2)%nat -> (j < 2)%nat -> (c < 3)%nat ->
       item img [i; j; c] == random_sample demo_env (c + 0)%nat) /\
  random_color demo_env (-1) 0%nat = Raise ValueError.
Proof.
  split.
  - apply (proj1 (random_color_solid demo_env 2 0%nat)). lia.
  - apply (proj2 (random_color_solid demo_env (-1) 0%nat)). lia.
Defined.

Lemma for_range_from_snoc {A} (body : nat -> A -> M A) k :
  forall start acc st,
    for_range_from start (S k) body acc st =
    bind (for_range_from start k body acc) (body (start + k)%nat) st.
Proof.
  induction k as [|k IH]; intros start acc st.
  - cbn [for_range_from]. unfold bind, ret. rewrite Nat.add_0_r.
    destruct (body start acc st) as [[a st']|e]; reflexivity.
  - change (for_range_from start (S (S k)) body acc st)
      with (bind (body start acc) (for_range_from (S start) (S k) body) st).
    change (for_range_from start (S k) body acc)
      with (bind (body start acc) (for_range_from (S start) k body)).
    unfold bind.
    destruct (body start acc st) as [[a st']|e]; [|reflexivity].
    rewrite IH. unfold bind. rewrite Nat.add_succ_r. reflexivity.
Qed.

Lemma rand_background_no_layers (E : Env) (N size : Z) (st : rng) :
  (N <= 0)%Z -> rand_background E N size st = random_image E size st.
Proof.
  intros HN. unfold rand_background, bind.
  replace (Z.to_nat N) with 0%nat by lia. cbn [for_range for_range_from].
  destruct (random_image E size st) as [[T st']|e]; reflexivity.
Qed.

Lemma rand_background_next_layer (E : Env) (N size : Z) (st : rng) :
  (0 <= N)%Z ->
  rand_background E (N + 1) size st =
    (T <- rand_background E N size ;;
     T2 <- random_image E size ;;
     mix E T T2 size) st.
Proof.
  intros HN. unfold rand_background.
  replace (Z.to_nat (N + 1)) with (S (Z.to_nat N)) by lia.
  unfold for_range, bind.
  destruct (random_image E size st) as [[T st']|e]; [|reflexivity].
  rewrite for_range_from_snoc. reflexivity.
Qed.

(** X2: the layers of [rand_background] form a left fold: with [N <= 0]
    it returns the base image of [random_image], and for [N >= 0] the run
    with [N + 1] layers is the run with [N] layers followed by one more
    draw of [random_image] and one more [mix]. *)
Theorem rand_background_layers (E : Env) (N size : Z) (st : rng) :
  ((N <= 0)%Z -> rand_background E N size st = random_image E size st) /\
  ((0 <= N)%Z ->
   rand_background E (N + 1) size st =
     (T <- rand_background E N size ;;
      T2 <- random_image E size ;;
      mix E T T2 size) st).
Proof.
  split; [apply rand_background_no_layers|apply rand_background_next_layer].
Qed.

Lemma rand_background_layers_witness :
  rand_background demo_env (-2) 2 0%nat = random_image demo_env 2 0%nat /\
  rand_background demo_env (1 + 1) 2 0%nat =
    (T <- rand_background demo_env 1 2 ;;
     T2 <- random_image demo_env 2 ;;
     mix demo_env T T2 2) 0%nat.
Proof.
  split.
  - apply (proj1 (rand_background_layers demo_env (-2) 2 0%nat)). lia.
  - apply (proj2 (rand_background_layers demo_env 1 2 0%nat)). lia.
Defined.

Lemma ball_size_range (E : Env) (st : rng) :
  0 <= random_sample E st -> random_sample E st < 1 ->
  1 # 10 <= ball_size_at E st /\ ball_size_at E st < 1 # 2.
Proof. unfold ball_size_at. intros H0 H1. split; lra. Qed.

Lemma mix_ok_inv (E : Env) img1 img2 size st r st' :
  mix E img1 img2 size st = Ok (r, st') ->
  exists mask, mix_mask E size st = Ok (mask, st') /\ blend img1 img2 mask = Ok r.
Proof.
  unfold mix, bind, lift.
  destruct (mix_mask E size st) as [[mask st1]|e]; [|discriminate].
  destruct (blend img1 img2 mask) as [r'|e] eqn:Hb; [|discriminate].
  intros H; injection H as <- <-. exists mask. auto.
Qed.

(** X3: whenever [mix] returns, [size] is not negative and the metaball
    module has been called once, after one draw of the generator, for a
    [size x size] field of 4 sources with a radius scale in [[0.1, 0.5]];
    the generator is left in the state in which that call left it. *)
Theorem mix_metaball_call (E : Env) (img1 img2 : ndarray) (size : Z) (st : rng)
    (r : ndarray) (st' : rng) :
  0 <= random_sample E st -> random_sample E st < 1 ->
  mix E img1 img2 size st = Ok (r, st') ->
  (0 <= size)%Z /\
  1 # 10 <= ball_size_at E st /\ ball_size_at E st <= 1 # 2 /\
  exists ball,
    random_metaball E size size 4 (ball_size_at E st) (S st) = Ok (ball, st').
Proof.
  intros H0 H1 Hmix.
  destruct (@mix_ok_inv E img1 img2 size st r st' Hmix) as (mask & Hmask & _).
  destruct (@mix_mask_inv E size st mask st' Hmask) as (Hsize & ball & _ & Hball & _).
  destruct (@ball_size_range E st H0 H1) as [Hlo Hhi].
  repeat split; try assumption; [now apply Qlt_le_weak|]. exists ball. assumption.
Qed.

Lemma mix_metaball_call_witness :
  exists r st',
    mix demo_env (constant_grid [2; 2; 3]%nat (1 # 3)) (constant_grid [2; 2; 3]%nat (2 # 3)) 2 0%nat = Ok (r, st') /\
    (0 <= 2)%Z /\
    1 # 10 <= ball_size_at demo_env 0%nat /\ ball_size_at demo_env 0%nat <= 1 # 2 /\
    exists ball,
      random_metaball demo_env 2 2 4 (ball_size_at demo_env 0%nat) 1%nat = Ok (ball, st').
Proof.
  eexists; eexists. split; [vm_compute; reflexivity|].
  eapply (@mix_metaball_call demo_env (constant_grid [2; 2; 3]%nat (1 # 3)) (constant_grid [2; 2; 3]%nat (2 # 3)) 2 0%nat).
  - cbn. lra.
  - cbn. lra.
  - vm_compute. reflexivity.
Defined.

(** X4: the failures of [mix] before the blend: a negative [size] raises
    [ValueError]; an exception of the metaball module is passed on
    unchanged; a metaball field that cannot be assigned to a
    [size x size] channel raises [ValueError]. *)
Theorem mix_failures (E : Env) (img1 img2 : ndarray) (size : Z) (st : rng) :
  ((size < 0)%Z -> mix E img1 img2 size st = Raise ValueError) /\
  (forall e, (0 <= size)%Z ->
     random_metaball E size size 4 (ball_size_at E st) (S st) = Raise e ->
     mix E img1 img2 size st = Raise e) /\
  (forall ball st' e, (0 <= size)%Z ->
     random_metaball E size size 4 (ball_size_at E st) (S st) = Ok (ball, st') ->
     broadcast_to ball [Z.to_nat size; Z.to_nat size] = Raise e ->
     mix E img1 img2 size st = Raise ValueError).
Proof.
  split; [|split].
  - intros Hneg. unfold mix, mix_mask, np_zeros, np_full, bind, lift.
    cbn [forallb]. destruct (Z.leb_spec 0 size) as [H|_]; [lia|]. reflexivity.
  - intros e Hsize Hball.
    unfold mix, mix_mask, np_zeros, bind, lift, uniform.
    unfold ball_size_at in Hball.
    rewrite np_full_ok by (repeat constructor; lia).
    cbv beta iota. rewrite Hball. reflexivity.
  - intros ball st' e Hsize Hball Hb.
    unfold mix, mix_mask, np_zeros, bind, lift, uniform.
    unfold ball_size_at in Hball.
    rewrite np_full_ok by (repeat constructor; lia).
    cbv beta iota. rewrite Hball.
    set (mask0 := {| shape := map Z.to_nat [size; size; 3%Z]; item := fun _ => 0 |}).
    assert (Hs0 : shape mask0 = [Z.to_nat size; Z.to_nat size; 3%nat]) by reflexivity.
    rewrite (set_channel_3 mask0 ball Hs0) by lia.
    rewrite Hb.
    unfold broadcast_to in Hb.
    destruct (broadcast_shapes _ _) as [s'|]; [|injection Hb as <-; reflexivity].
    destruct (shape_eqb s' _); [discriminate|injection Hb as <-; reflexivity].
Qed.

Lemma mix_failures_witness :
  mix demo_env (constant_grid [2; 2; 3]%nat (1 # 3)) (constant_grid [2; 2; 3]%nat (2 # 3)) (-1) 0%nat = Raise ValueError /\
  mix (metaball_env (Raise IndexError)) (constant_grid [2; 2; 3]%nat (1 # 3)) (constant_grid [2; 2; 3]%nat (2 # 3)) 2 0%nat = Raise IndexError /\
  mix (metaball_env (Ok (constant_grid [3; 3]%nat (1 # 2)))) (constant_grid [2; 2; 3]%nat (1 # 3)) (constant_grid [2; 2; 3]%nat (2 # 3)) 2 0%nat
    = Raise ValueError.
Proof.
  split; [|split].
  - apply (proj1 (mix_failures demo_env (constant_grid [2; 2; 3]%nat (1 # 3)) (constant_grid [2; 2; 3]%nat (2 # 3)) (-1) 0%nat)). lia.
  - apply (proj1 (proj2 (mix_failures (metaball_env (Raise IndexError))
                           (constant_grid [2; 2; 3]%nat (1 # 3)) (constant_grid [2; 2; 3]%nat (2 # 3)) 2 0%nat))); [lia|reflexivity].
  - apply (proj2 (proj2 (mix_failures
                           (metaball_env (Ok (constant_grid [3; 3]%nat (1 # 2))))
                           (constant_grid [2; 2; 3]%nat (1 # 3)) (constant_grid [2; 2; 3]%nat (2 # 3)) 2 0%nat))
             (constant_grid [3; 3]%nat (1 # 2)) 2%nat ValueError);
      [lia|reflexivity|reflexivity].
Defined.

Lemma convex_between a b m :
  0 <= m -> m <= 1 ->
  Qmin a b <= a * (1 - m) + b * m /\ a * (1 - m) + b * m <= Qmax a b.
Proof.
  intros Hm0 Hm1.
  pose proof (Q.le_min_l a b). pose proof (Q.le_min_r a b).
  pose proof (Q.le_max_l a b). pose proof (Q.le_max_r a b).
  split; [apply convex_ge|apply convex_le]; assumption.
Qed.

(** X5: the blend overshoots by rounding only: for images and a mask of
    one shape, mask values in [[0,1]], and operations of relative error
    at most [u <= 1/8] and absolute error at most [eta], every cell of
    the rounded blend lies between the cells of the two images at that
    index, up to [(5u + 2 eta) max(|a|, |b|) + 4 eta]. *)
Theorem blend_between_rounded (rnd : Q -> Q) (u eta : Q) (img1 img2 mask : ndarray) :
  rounding_error rnd u eta -> 0 <= u -> u <= 1 # 8 -> 0 <= eta ->
  shape img1 = shape mask -> shape img2 = shape mask -> cells_in 0 1 mask ->
  exists r,
    blend_rounded rnd img1 img2 mask = Ok r /\
    forall idx, in_bounds idx (shape mask) ->
      let a := item img1 idx in
      let b := item img2 idx in
      let err := (5 * u + 2 * eta) * Qmax (Qabs a) (Qabs b) + 4 * eta in
      Qmin a b - err <= item r idx /\ item r idx <= Qmax a b + err.
Proof.
  intros Hrnd Hu Hu8 Heta H1 H2 Hm.
  destruct (@blend_rounded_error rnd u eta img1 img2 mask Hrnd Hu Hu8 Heta H1 H2 Hm)
    as (r & Hr & _ & Herr).
  exists r. split; [assumption|].
  intros idx Hidx a b err.
  pose proof (Herr idx (Qmax (Qabs a) (Qabs b)) Hidx
                (Q.le_max_l _ _) (Q.le_max_r _ _)) as He.
  fold a b err in He. apply Qabs_bound in He as [Hel Heu].
  destruct (Hm idx Hidx) as [Hm0 Hm1].
  destruct (@convex_between a b (item mask idx) Hm0 Hm1) as [Hcl Hcu].
  split; lra.
Qed.

Lemma blend_between_rounded_witness :
  exists r,
    blend_rounded (round_to 10) (constant_grid [2; 2; 3]%nat (1 # 3)) (constant_grid [2; 2; 3]%nat (2 # 3)) (built_mask (1 # 4)) = Ok r /\
    forall idx, in_bounds idx [2; 2; 3]%nat ->
      let err := (5 * 0 + 2 * ((1 # 2) / inject_Z (2 ^ 10)))
                 * Qmax (Qabs (1 # 3)) (Qabs (2 # 3))
                 + 4 * ((1 # 2) / inject_Z (2 ^ 10)) in
      Qmin (1 # 3) (2 # 3) - err <= item r idx /\
      item r idx <= Qmax (1 # 3) (2 # 3) + err.
Proof.
  apply (@blend_between_rounded (round_to 10) 0 ((1 # 2) / inject_Z (2 ^ 10))
           (constant_grid [2; 2; 3]%nat (1 # 3)) (constant_grid [2; 2; 3]%nat (2 # 3)) (built_mask (1 # 4))).
  - apply round_to_error.
  - lra.
  - lra.
  - vm_compute. discriminate.
  - reflexivity.
  - reflexivity.
  - apply built_mask_unit; lra.
Defined.

(** X6: exchanging the two images and replacing the mask by the computed
    [1 - mask] gives the same blend up to rounding: with operations of
    relative error at most [u <= 1/8] and absolute error at most [eta]
    whose rounding keeps [[0,1]], and mask values in [[0,1]], the two
    results differ at every cell by at most
    [(12u + 6 eta) max(|a|, |b|) + 8 eta]. *)
Theorem blend_swap_rounded (rnd : Q -> Q) (u eta : Q) (A B mask : ndarray) :
  rounding_error rnd u eta -> keeps_unit_interval rnd ->
  0 <= u -> u <= 1 # 8 -> 0 <= eta ->
  shape A = shape mask -> shape B = shape mask -> cells_in 0 1 mask ->
  exists inv r1 r2,
    np_sub (scalar 1) mask = Ok inv /\
    blend_rounded rnd A B mask = Ok r1 /\
    blend_rounded rnd B A (round_cells rnd inv) = Ok r2 /\
    shape r1 = shape r2 /\
    forall idx, in_bounds idx (shape mask) ->
      Qabs (item r1 idx - item r2 idx)
        <= (12 * u + 6 * eta) * Qmax (Qabs (item A idx)) (Qabs (item B idx)) + 8 * eta.
Proof.
  intros Hrnd Hunit Hu Hu8 Heta HA HB Hm.
  destruct (elementwise_scalar_l Qminus 1 mask) as (inv & Hinv & Hsi & Hii).
  assert (Hm' : cells_in 0 1 (round_cells rnd inv)).
  { intros idx Hidx. cbn [round_cells shape item] in *. rewrite Hsi in Hidx.
    rewrite Hii by assumption. destruct (Hm idx Hidx). apply Hunit; lra. }
  destruct (@blend_rounded_error rnd u eta A B mask Hrnd Hu Hu8 Heta HA HB Hm)
    as (r1 & Hr1 & Hs1 & He1).
  destruct (@blend_rounded_error rnd u eta B A (round_cells rnd inv) Hrnd Hu Hu8 Heta)
    as (r2 & Hr2 & Hs2 & He2); try (cbn [round_cells shape]; congruence); [assumption|].
  exists inv, r1, r2. split; [assumption|]. split; [assumption|].
  split; [assumption|]. split; [cbn [round_cells shape] in Hs2; congruence|].
  intros idx Hidx.
  set (a := item A idx). set (b := item B idx). set (K := Qmax (Qabs a) (Qabs b)).
  assert (HKa : Qabs a <= K) by apply Q.le_max_l.
  assert (HKb : Qabs b <= K) by apply Q.le_max_r.
  pose proof (He1 idx K Hidx HKa HKb) as E1.
  assert (Hidx' : in_bounds idx (shape (round_cells rnd inv)))
    by (cbn [round_cells shape]; congruence).
  pose proof (He2 idx K Hidx' HKb HKa) as E2.
  cbn [round_cells item] in E2. rewrite Hii in E2 by assumption.
  fold a b in E1, E2.
  destruct (Hm idx Hidx) as [Hm0 Hm1].
  set (m := item mask idx) in *.
  destruct (@rnd_bounds rnd u eta (1 - m) 1 Hrnd Hu) as [Hw1 Hw2]; try lra.
  set (w := rnd (1 - m)) in *.
  apply Qabs_bound in HKa as [Ha0 Ha1]. apply Qabs_bound in HKb as [Hb0 Hb1].
  destruct (@mult_bounds a (w - (1 - m)) K (u * 1 + eta) Ha0 Ha1) as [Hae1 Hae2];
    try lra.
  destruct (@mult_bounds b (w - (1 - m)) K (u * 1 + eta) Hb0 Hb1) as [Hbe1 Hbe2];
    try lra.
  apply Qabs_bound in E1 as [E1l E1u]. apply Qabs_bound in E2 as [E2l E2u].
  apply Qabs_bound. split; lra.
Qed.

Lemma blend_swap_rounded_witness :
  exists inv r1 r2,
    np_sub (scalar 1) (built_mask (1 # 4)) = Ok inv /\
    blend_rounded (round_to 10) (constant_grid [2; 2; 3]%nat (1 # 3)) (constant_grid [2; 2; 3]%nat (2 # 3)) (built_mask (1 # 4)) = Ok r1 /\
    blend_rounded (round_to 10) (constant_grid [2; 2; 3]%nat (2 # 3)) (constant_grid [2; 2; 3]%nat (1 # 3)) (round_cells (round_to 10) inv) = Ok r2 /\
    shape r1 = shape r2 /\
    forall idx, in_bounds idx [2; 2; 3]%nat ->
      Qabs (item r1 idx - item r2 idx)
        <= (12 * 0 + 6 * ((1 # 2) / inject_Z (2 ^ 10)))
           * Qmax (Qabs (1 # 3)) (Qabs (2 # 3))
           + 8 * ((1 # 2) / inject_Z (2 ^ 10)).
Proof.
  apply (@blend_swap_rounded (round_to 10) 0 ((1 # 2) / inject_Z (2 ^ 10))
           (constant_grid [2; 2; 3]%nat (1 # 3)) (constant_grid [2; 2; 3]%nat (2 # 3)) (built_mask (1 # 4))).
  - apply round_to_error.
  - apply round_to_unit.
  - lra.
  - lra.
  - vm_compute. discriminate.
  - reflexivity.
  - reflexivity.
  - apply built_mask_unit; lra.
Defined.

Lemma broadcast_dim_1_r d : broadcast_dim d 1 = Some d.
Proof.
  unfold broadcast_dim. destruct (Nat.eqb_spec d 1) as [->|H]; reflexivity.
Qed.

Lemma elementwise_unit_mask f a m h w :
  shape a = [h; w; 3%nat] -> shape m = [1; 1; 3]%nat ->
  exists r, elementwise f a m = Ok r /\ shape r = [h; w; 3%nat] /\
    forall i j c, (i < h)%nat -> (j < w)%nat -> (c < 3)%nat ->
      item r [i; j; c] = f (item a [i; j; c]) (item m [0; 0; c]%nat).
Proof.
  intros Ha Hm. unfold elementwise. rewrite Ha, Hm.
  unfold broadcast_shapes. cbn [rev app broadcast_rev].
  rewrite !broadcast_dim_1_r. cbn.
  eexists; split; [reflexivity|]. split; [reflexivity|].
  intros i j c Hi Hj Hc. cbn [item].
  rewrite project_in_bounds by (apply in_bounds3; auto).
  reflexivity.
Qed.

(** X7: with [size = 1] the mask has one pixel and broadcasts: [mix]
    accepts two images of any common shape [(h, w, 3)] and blends every
    pixel with the weight of that single mask pixel. *)
Theorem mix_unit_mask (E : Env) (img1 img2 : ndarray) (h w : nat) (st : rng)
    (mask : ndarray) (st' : rng) :
  shape img1 = [h; w; 3%nat] -> shape img2 = [h; w; 3%nat] ->
  mix_mask E 1 st = Ok (mask, st') ->
  exists r,
    mix E img1 img2 1 st = Ok (r, st') /\
    shape r = [h; w; 3%nat] /\
    forall i j c, (i < h)%nat -> (j < w)%nat -> (c < 3)%nat ->
      item r [i; j; c] ==
        item img1 [i; j; c] * (1 - item mask [0; 0; c]%nat)
        + item img2 [i; j; c] * item mask [0; 0; c]%nat.
Proof.
  intros H1 H2 Hmask.
  destruct (@mix_mask_inv E 1 st mask st' Hmask) as (_ & _ & _ & _ & _ & Hsm & _).
  change (Z.to_nat 1) with 1%nat in Hsm.
  unfold mix, bind, lift. rewrite Hmask. unfold blend, np_sub, np_mul, np_add.
  destruct (elementwise_scalar_l Qminus 1 mask) as (inv & -> & Hsi & Hii).
  rewrite Hsm in Hsi, Hii.
  destruct (@elementwise_unit_mask Qmult img1 inv h w H1 Hsi) as (lhs & -> & Hsl & Hil).
  destruct (@elementwise_unit_mask Qmult img2 mask h w H2 Hsm) as (rhs & -> & Hsr & Hir).
  destruct (@elementwise_same Qplus lhs rhs) as (r & -> & Hs & Hi); [congruence|].
  exists r. split; [reflexivity|]. split; [congruence|].
  intros i j c Hi' Hj Hc.
  rewrite Hi by (rewrite Hsl; apply in_bounds3; auto).
  rewrite Hil, Hir by assumption.
  rewrite Hii by (apply in_bounds3; lia). reflexivity.
Qed.

Lemma mix_unit_mask_witness :
  exists mask st',
    mix_mask demo_env 1 0%nat = Ok (mask, st') /\
    exists r,
      mix demo_env (constant_grid [5; 4; 3]%nat (1 # 3)) (constant_grid [5; 4; 3]%nat (2 # 3)) 1 0%nat = Ok (r, st') /\
      shape r = [5; 4; 3]%nat /\
      forall i j c, (i < 5)%nat -> (j < 4)%nat -> (c < 3)%nat ->
        item r [i; j; c] ==
          (1 # 3) * (1 - item mask [0; 0; c]%nat) + (2 # 3) * item mask [0; 0; c]%nat.
Proof.
  eexists; eexists. split; [vm_compute; reflexivity|].
  apply (@mix_unit_mask demo_env (constant_grid [5; 4; 3]%nat (1 # 3)) (constant_grid [5; 4; 3]%nat (2 # 3)) 5 4 0%nat); vm_compute; reflexivity.
Defined.

Lemma Qgt_bool_true x y : y < x -> Qgt_bool x y = true.
Proof.
  intros H. unfold Qgt_bool. destruct (Qle_bool x y) eqn:Hle; [|reflexivity].
  apply Qle_bool_iff in Hle. lra.
Qed.

Lemma Qgt_bool_false x y : x <= y -> Qgt_bool x y = false.
Proof.
  intros H. unfold Qgt_bool. apply Qle_bool_iff in H. now rewrite H.
Qed.

(** X8: the two branches of [random_image], for [size >= 0]: when the
    first sample exceeds 1/2 the image is the solid colour made of the
    next three samples and the turbulence module is not called; otherwise
    it is the turbulence image with every cell multiplied by twice the
    sample drawn after the call of the turbulence module. *)
Theorem random_image_branches (E : Env) (size : Z) (st : rng) :
  (0 <= size)%Z ->
  (1 # 2 < random_sample E st ->
   exists img,
     random_image E size st = Ok (img, (4 + st)%nat) /\
     shape img = [Z.to_nat size; Z.to_nat size; 3%nat] /\
     forall i j c, (i < Z.to_nat size)%nat -> (j < Z.to_nat size)%nat -> (c < 3)%nat ->
       item img [i; j; c] == random_sample E (S c + st)%nat) /\
  (random_sample E st <= 1 # 2 ->
   forall t st1,
     turbulence_rgb E size (S st) = Ok (t, st1) ->
     exists img,
       random_image E size st = Ok (img, S st1) /\
       shape img = shape t /\
       forall idx, in_bounds idx (shape t) ->
         item img idx == item t idx * (2 * random_sample E st1)).
Proof.
  intros Hsize. split.
  - intros Hr.
    destruct (@random_color_run_gen E size (S st) Hsize) as (img & Himg & Hs & Hi).
    exists img. unfold random_image, bind, uniform.
    rewrite Qgt_bool_true by lra.
    split; [rewrite Himg; repeat f_equal; lia|]. split; [assumption|].
    intros i j c Hi' Hj Hc. rewrite Hi by assumption.
    replace (c + S st)%nat with (S c + st)%nat by lia. reflexivity.
  - intros Hr t st1 Ht.
    unfold random_image, bind, uniform.
    rewrite Qgt_bool_false by lra. rewrite Ht. unfold lift, np_mul.
    destruct (elementwise_scalar_r Qmult t (0 + (2 - 0) * random_sample E st1))
      as (img & -> & Hs & Hi).
    exists img. split; [reflexivity|]. split; [assumption|].
    intros idx Hidx. rewrite Hi by assumption. ring.
Qed.

Lemma random_image_branches_witness :
  (exists img,
     random_image demo_env 2 1%nat = Ok (img, 5%nat) /\
     shape img = [2; 2; 3]%nat /\
     forall i j c, (i < 2)%nat -> (j < 2)%nat -> (c < 3)%nat ->
       item img [i; j; c] == random_sample demo_env (S c + 1)%nat) /\
  (exists img,
     random_image demo_env 2 0%nat = Ok (img, 3%nat) /\
     shape img = [2; 2; 3]%nat /\
     forall idx, in_bounds idx [2; 2; 3]%nat ->
       item img idx ==
         item (constant_grid [2; 2; 3]%nat (9 # 10)) idx
         * (2 * random_sample demo_env 2%nat)).
Proof.
  split.
  - apply (proj1 (@random_image_branches demo_env 2 1%nat ltac:(lia))).
    cbn. lra.
  - apply (proj2 (@random_image_branches demo_env 2 0%nat ltac:(lia))
             ltac:(cbn; lra)
             (constant_grid [2; 2; 3]%nat (9 # 10)) 2%nat eq_refl).
Defined.

Section SolidOnly.

Variable E : Env.
Hypothesis samples_high : forall st, 1 # 2 < random_sample E st /\ random_sample E st < 1.
Hypothesis metaball_ok : metaball_contract E.

Lemma solid_image_yields size st :
  (0 < size)%Z ->
  yields (random_image E size) st
    (fun img => shape img = [Z.to_nat size; Z.to_nat size; 3%nat] /\ cells_in 0 1 img).
Proof.
  intros Hsize.
  destruct (@random_image_branches E size st) as [Hsolid _]; [lia|].
  destruct (Hsolid (proj1 (samples_high st))) as (img & Himg & Hs & Hi).
  exists img, (4 + st)%nat. split; [assumption|]. split; [assumption|].
  intros idx Hidx. rewrite Hs in Hidx.
  destruct (in_bounds3_inv Hidx) as (i & j & c & -> & Hi' & Hj & Hc).
  rewrite Hi by assumption.
  destruct (samples_high (S c + st)%nat). split; lra.
Qed.

Lemma solid_mix_yields img1 img2 size st :
  (0 < size)%Z ->
  shape img1 = [Z.to_nat size; Z.to_nat size; 3%nat] -> cells_in 0 1 img1 ->
  shape img2 = [Z.to_nat size; Z.to_nat size; 3%nat] -> cells_in 0 1 img2 ->
  yields (mix E img1 img2 size) st
    (fun r => shape r = [Z.to_nat size; Z.to_nat size; 3%nat] /\ cells_in 0 1 r).
Proof.
  intros Hsize H1 Hc1 H2 Hc2.
  destruct (@metaball_ok size size 4%Z (ball_size_at E st) (S st))
    as (g & st1 & Hg & Hsg & Hcg); try lia.
  { unfold ball_size_at. destruct (samples_high st). lra. }
  destruct (@mix_mask_run E size st g st1) as (mask & Hm & Hsm & Him);
    [lia|assumption|assumption|].
  destruct (@mix_run E img1 img2 size st mask st1 H1 H2 Hm) as (r & Hr & Hs & Hi).
  exists r, st1. split; [assumption|]. split; [assumption|].
  intros idx Hidx. rewrite Hs in Hidx.
  destruct (in_bounds3_inv Hidx) as (i & j & c & -> & Hi' & Hj & Hc).
  rewrite Hi, Him by assumption.
  destruct (Hcg [i; j]) as [Hg0 Hg1]; [rewrite Hsg; now apply in_bounds2|].
  destruct (Hc1 [i; j; c]); [rewrite H1; apply in_bounds3; auto|].
  destruct (Hc2 [i; j; c]); [rewrite H2; apply in_bounds3; auto|].
  split; [apply convex_ge|apply convex_le]; assumption.
Qed.

Lemma solid_background_yields N size st :
  (0 < size)%Z ->
  yields (rand_background E N size) st
    (fun img => shape img = [Z.to_nat size; Z.to_nat size; 3%nat] /\ cells_in 0 1 img).
Proof.
  intros Hsize. unfold rand_background.
  eapply yields_bind; [apply solid_image_yields; assumption|].
  intros T st1 HT. cbv beta. apply yields_for_range; [|assumption].
  intros i acc st2 _ [Hsa Hca]. cbv beta.
  eapply yields_bind; [apply solid_image_yields; assumption|].
  intros T2 st3 [Hs2 Hc2]. cbv beta.
  now apply solid_mix_yields.
Qed.

End SolidOnly.

Lemma bright_env_metaball : metaball_contract bright_env.
Proof.
  intros w h count r st _ _ _ _. eexists; eexists. split; [reflexivity|].
  split; [reflexivity|]. intros idx _. simpl. split; lra.
Qed.

(** X9: when every sample of the generator exceeds 1/2, so that every base
    image is a solid colour, [rand_background] returns for every [size > 0]
    an image of shape [(size, size, 3)] with every value in [[0,1]],
    whatever the turbulence module does. *)
Theorem solid_background_range (E : Env) (N size : Z) (st : rng) :
  (forall k, 1 # 2 < random_sample E k /\ random_sample E k < 1) ->
  metaball_contract E ->
  (0 < size)%Z ->
  exists img st',
    rand_background E N size st = Ok (img, st') /\
    shape img = [Z.to_nat size; Z.to_nat size; 3%nat] /\
    cells_in 0 1 img.
Proof.
  intros Hs Hm Hsize. exact (@solid_background_yields E Hs Hm N size st Hsize).
Qed.

Lemma solid_background_range_witness :
  exists img st',
    rand_background bright_env 3 2 0%nat = Ok (img, st') /\
    shape img = [2; 2; 3]%nat /\
    cells_in 0 1 img.
Proof.
  apply (@solid_background_range bright_env 3 2 0%nat).
  - intros k. cbn. split; lra.
  - exact bright_env_metaball.
  - lia.
Defined.


(** ** Properties of the mesh bounding box *)

Lemma Qgt_bool_spec x y : if Qgt_bool x y then y < x else x <= y.
Proof.
  unfold Qgt_bool. destruct (Qle_bool x y) eqn:H; simpl.
  - now apply Qle_bool_iff.
  - apply Qnot_le_lt. intros Hle. apply Qle_bool_iff in Hle. congruence.
Qed.

Lemma Qgt_bool_ext x y x' y' : (y < x <-> y' < x') -> Qgt_bool x y = Qgt_bool x' y'.
Proof.
  intros H. pose proof (Qgt_bool_spec x y) as H1. pose proof (Qgt_bool_spec x' y') as H2.
  destruct (Qgt_bool x y), (Qgt_bool x' y'); try reflexivity.
  - apply H in H1. lra.
  - apply H in H2. lra.
Qed.

Lemma max_from_spec l : forall best,
  (max_from best l = best \/ In (max_from best l) l) /\
  best <= max_from best l /\
  forall x, In x l -> x <= max_from best l.
Proof.
  induction l as [|y t IH]; intros best; cbn [max_from].
  - split; [now left|]. split; [lra|]. intros x [].
  - pose proof (Qgt_bool_spec y best) as Hc.
    destruct (Qgt_bool y best);
      [destruct (IH y) as (Hin & Hle & Hall)|destruct (IH best) as (Hin & Hle & Hall)].
    + split; [right; destruct Hin as [->|Hin]; [now left|now right]|].
      split; [lra|]. intros x [<-|Hx]; [assumption|now apply Hall].
    + split; [destruct Hin as [Hin|Hin]; [now left|right; now right]|].
      split; [assumption|]. intros x [<-|Hx]; [lra|now apply Hall].
Qed.

Lemma min_from_spec l : forall best,
  (min_from best l = best \/ In (min_from best l) l) /\
  min_from best l <= best /\
  forall x, In x l -> min_from best l <= x.
Proof.
  induction l as [|y t IH]; intros best; cbn [min_from].
  - split; [now left|]. split; [lra|]. intros x [].
  - pose proof (Qgt_bool_spec best y) as Hc.
    destruct (Qgt_bool best y);
      [destruct (IH y) as (Hin & Hle & Hall)|destruct (IH best) as (Hin & Hle & Hall)].
    + split; [right; destruct Hin as [->|Hin]; [now left|now right]|].
      split; [lra|]. intros x [<-|Hx]; [assumption|now apply Hall].
    + split; [destruct Hin as [Hin|Hin]; [now left|right; now right]|].
      split; [assumption|]. intros x [<-|Hx]; [lra|now apply Hall].
Qed.

Lemma extent_nonneg V e : extent V = Ok e -> 0 <= e.
Proof.
  destruct V as [|x t]; [discriminate|]. cbn. intros H; injection H as <-.
  destruct (max_from_spec t x) as (_ & Hmax & _).
  destruct (min_from_spec t x) as (_ & Hmin & _). lra.
Qed.

Lemma extent_nil : extent [] = Raise ValueError.
Proof. reflexivity. Qed.

Lemma extent_cons x t : extent (x :: t) = Ok (max_from x t - min_from x t).
Proof. reflexivity. Qed.

(** Shifts *)
Lemma max_from_shift d l : forall best,
  max_from (best + d) (map (fun x => x + d) l) = max_from best l + d.
Proof.
  induction l as [|y t IH]; intros best; cbn [max_from map]; [reflexivity|].
  rewrite (@Qgt_bool_ext (y + d) (best + d) y best) by (split; intros; lra).
  destruct (Qgt_bool y best); apply IH.
Qed.

Lemma min_from_shift d l : forall best,
  min_from (best + d) (map (fun x => x + d) l) = min_from best l + d.
Proof.
  induction l as [|y t IH]; intros best; cbn [min_from map]; [reflexivity|].
  rewrite (@Qgt_bool_ext (best + d) (y + d) best y) by (split; intros; lra).
  destruct (Qgt_bool best y); apply IH.
Qed.

Lemma extent_shift d V e :
  extent V = Ok e ->
  exists e', extent (map (fun x => x + d) V) = Ok e' /\ e' == e.
Proof.
  destruct V as [|x t]; [discriminate|]. rewrite extent_cons.
  intros H; injection H as <-. cbn [map]. rewrite extent_cons.
  rewrite max_from_shift, min_from_shift. eexists; split; [reflexivity|]. ring.
Qed.

Lemma extent_constant c V e :
  (forall x, In x V -> x == c) -> extent V = Ok e -> e == 0.
Proof.
  destruct V as [|x t]; [discriminate|]. rewrite extent_cons.
  intros Hall H; injection H as <-.
  assert (Hmax : max_from x t == c).
  { destruct (max_from_spec t x) as ([->|Hin] & _); apply Hall; [now left|now right]. }
  assert (Hmin : min_from x t == c).
  { destruct (min_from_spec t x) as ([->|Hin] & _); apply Hall; [now left|now right]. }
  rewrite Hmax, Hmin. ring.
Qed.

Lemma bbvol_cons v vs :
  compute_mesh_bbvol (v :: vs) =
    Ok ((max_from (co0 v) (map co0 vs) - min_from (co0 v) (map co0 vs))
        * (max_from (co1 v) (map co1 vs) - min_from (co1 v) (map co1 vs))
        * (max_from (co2 v) (map co2 vs) - min_from (co2 v) (map co2 vs))).
Proof. reflexivity. Qed.

Lemma bbvol_extents vs v :
  compute_mesh_bbvol vs = Ok v <->
  exists dx dy dz,
    extent (map co0 vs) = Ok dx /\ extent (map co1 vs) = Ok dy /\
    extent (map co2 vs) = Ok dz /\ v = dx * dy * dz.
Proof.
  unfold compute_mesh_bbvol. split.
  - destruct (extent (map co0 vs)) as [dx|]; [|discriminate].
    destruct (extent (map co1 vs)) as [dy|]; [|discriminate].
    destruct (extent (map co2 vs)) as [dz|]; [|discriminate].
    intros H; injection H as <-. exists dx, dy, dz. auto.
  - intros (dx & dy & dz & -> & -> & -> & ->). reflexivity.
Qed.

(** X10: [compute_mesh_bbvol] raises [ValueError] on a mesh without
    vertices, and on any other mesh returns a volume that is not negative. *)
Theorem bbvol_defined (vertices : list vertex) :
  (vertices = [] -> compute_mesh_bbvol vertices = Raise ValueError) /\
  (vertices <> [] -> exists v, compute_mesh_bbvol vertices = Ok v /\ 0 <= v).
Proof.
  split.
  - intros ->. reflexivity.
  - intros Hne. destruct vertices as [|v vs]; [congruence|].
    eexists. split; [apply bbvol_cons|].
    pose proof (@extent_nonneg (map co0 (v :: vs)) _ (extent_cons _ _)).
    pose proof (@extent_nonneg (map co1 (v :: vs)) _ (extent_cons _ _)).
    pose proof (@extent_nonneg (map co2 (v :: vs)) _ (extent_cons _ _)).
    apply Qmult_le_0_compat; [apply Qmult_le_0_compat|]; assumption.
Qed.

Lemma bbvol_defined_witness :
  compute_mesh_bbvol [] = Raise ValueError /\
  exists v, compute_mesh_bbvol [mk_vertex 0 0 0; mk_vertex 2 0 1; mk_vertex 1 3 (1 # 2)] = Ok v /\ 0 <= v.
Proof.
  split.
  - apply (proj1 (bbvol_defined [])). reflexivity.
  - apply (proj2 (bbvol_defined [mk_vertex 0 0 0; mk_vertex 2 0 1; mk_vertex 1 3 (1 # 2)])). discriminate.
Defined.

(** X11: moving every vertex by the same vector leaves the volume of the
    bounding box unchanged. *)
Theorem bbvol_translate (d : vertex) (vertices : list vertex) (v : Q) :
  compute_mesh_bbvol vertices = Ok v ->
  exists v', compute_mesh_bbvol (map (translate d) vertices) = Ok v' /\ v' == v.
Proof.
  intros H. apply bbvol_extents in H as (dx & dy & dz & Hx & Hy & Hz & ->).
  destruct (@extent_shift (co0 d) _ _ Hx) as (dx' & Hx' & Ex).
  destruct (@extent_shift (co1 d) _ _ Hy) as (dy' & Hy' & Ey).
  destruct (@extent_shift (co2 d) _ _ Hz) as (dz' & Hz' & Ez).
  rewrite map_map in Hx', Hy', Hz'.
  exists (dx' * dy' * dz'). split.
  - apply bbvol_extents. exists dx', dy', dz'. rewrite !map_map. auto.
  - rewrite Ex, Ey, Ez. reflexivity.
Qed.

Lemma bbvol_translate_witness :
  exists v',
    compute_mesh_bbvol (map (translate (mk_vertex 5 (-1) (1 # 3))) [mk_vertex 0 0 0; mk_vertex 2 0 1; mk_vertex 1 3 (1 # 2)]) = Ok v' /\
    v' == 6.
Proof.
  apply (@bbvol_translate (mk_vertex 5 (-1) (1 # 3)) [mk_vertex 0 0 0; mk_vertex 2 0 1; mk_vertex 1 3 (1 # 2)] 6).
  vm_compute. reflexivity.
Defined.

Lemma product_mono x y z x' y' z' :
  0 <= x -> x <= x' -> 0 <= y -> y <= y' -> 0 <= z -> z <= z' ->
  x * y * z <= x' * y' * z'.
Proof.
  intros. assert (x * y <= x' * y') by nra.
  assert (0 <= x * y) by nra. nra.
Qed.

Lemma extent_grows x V e :
  extent V = Ok e -> exists e', extent (x :: V) = Ok e' /\ 0 <= e /\ e <= e'.
Proof.
  intros H. pose proof (extent_nonneg _ H) as He0.
  destruct V as [|y t]; [discriminate|]. rewrite extent_cons in H.
  injection H as <-. rewrite extent_cons.
  eexists. split; [reflexivity|]. split; [assumption|].
  destruct (max_from_spec (y :: t) x) as (_ & _ & Hmax).
  destruct (min_from_spec (y :: t) x) as (_ & _ & Hmin).
  destruct (max_from_spec t y) as ([Hm|Hm] & _).
  - destruct (min_from_spec t y) as ([Hn|Hn] & _).
    + pose proof (Hmax _ (or_introl eq_refl)). pose proof (Hmin _ (or_introl eq_refl)).
      rewrite Hm, Hn. lra.
    + pose proof (Hmax _ (or_introl eq_refl)). pose proof (Hmin _ (or_intror Hn)).
      rewrite Hm. lra.
  - destruct (min_from_spec t y) as ([Hn|Hn] & _).
    + pose proof (Hmax _ (or_intror Hm)). pose proof (Hmin _ (or_introl eq_refl)).
      rewrite Hn. lra.
    + pose proof (Hmax _ (or_intror Hm)). pose proof (Hmin _ (or_intror Hn)). lra.
Qed.

(** X12: a mesh with one more vertex has a bounding box at least as
    large: adding a vertex never lowers the volume. *)
Theorem bbvol_grows (p : vertex) (vertices : list vertex) (v : Q) :
  compute_mesh_bbvol vertices = Ok v ->
  exists v', compute_mesh_bbvol (p :: vertices) = Ok v' /\ v <= v'.
Proof.
  intros H. apply bbvol_extents in H as (dx & dy & dz & Hx & Hy & Hz & ->).
  destruct (@extent_grows (co0 p) _ _ Hx) as (dx' & Hx' & Hx0 & Hxle).
  destruct (@extent_grows (co1 p) _ _ Hy) as (dy' & Hy' & Hy0 & Hyle).
  destruct (@extent_grows (co2 p) _ _ Hz) as (dz' & Hz' & Hz0 & Hzle).
  exists (dx' * dy' * dz'). split.
  - apply bbvol_extents. exists dx', dy', dz'. cbn [map]. auto.
  - now apply product_mono.
Qed.

Lemma bbvol_grows_witness :
  exists v',
    compute_mesh_bbvol (mk_vertex 4 (-1) 0 :: [mk_vertex 0 0 0; mk_vertex 2 0 1; mk_vertex 1 3 (1 # 2)]) = Ok v' /\ 6 <= v'.
Proof.
  apply (@bbvol_grows (mk_vertex 4 (-1) 0) [mk_vertex 0 0 0; mk_vertex 2 0 1; mk_vertex 1 3 (1 # 2)] 6). vm_compute. reflexivity.
Defined.

(** X13: a mesh whose vertices all have the same value of one coordinate,
    such as a plane, has a bounding box of volume 0. *)
Theorem bbvol_flat (vertices : list vertex) (c v : Q) :
  (forall p, In p vertices -> co0 p == c) \/
  (forall p, In p vertices -> co1 p == c) \/
  (forall p, In p vertices -> co2 p == c) ->
  compute_mesh_bbvol vertices = Ok v ->
  v == 0.
Proof.
  intros Hflat H. apply bbvol_extents in H as (dx & dy & dz & Hx & Hy & Hz & ->).
  assert (Hmap : forall (f : vertex -> Q),
            (forall p, In p vertices -> f p == c) ->
            forall x, In x (map f vertices) -> x == c).
  { intros f Hf x Hin. apply in_map_iff in Hin as (p & <- & Hp). now apply Hf. }
  destruct Hflat as [Hc|[Hc|Hc]].
  - rewrite (@extent_constant c _ _ (Hmap co0 Hc) Hx). ring.
  - rewrite (@extent_constant c _ _ (Hmap co1 Hc) Hy). ring.
  - rewrite (@extent_constant c _ _ (Hmap co2 Hc) Hz). ring.
Qed.

Lemma bbvol_flat_witness :
  exists v, compute_mesh_bbvol [mk_vertex 0 0 1; mk_vertex 2 0 1; mk_vertex 1 3 1] = Ok v /\ v == 0.
Proof.
  eexists. split; [vm_compute; reflexivity|].
  apply (@bbvol_flat [mk_vertex 0 0 1; mk_vertex 2 0 1; mk_vertex 1 3 1] 1).
  - right. right. intros p [<-|[<-|[<-|[]]]]; reflexivity.
  - vm_compute. reflexivity.
Defined.

(** ** Properties of the layers *)

(** X14: on an object with at least two layers, [turn_off] leaves it on
    layer 1 only of the first two and [turn_on] on layer 0 only, neither
    touches the other layers, and each undoes the other: hiding a shown
    object and showing it again restores its layers. *)
Theorem layers_round_trip (layers : list bool) :
  (2 <= length layers)%nat ->
  (exists hidden,
     turn_off layers = Ok hidden /\
     length hidden = length layers /\
     nth 0 hidden true = false /\ nth 1 hidden false = true /\
     (forall k, (2 <= k)%nat -> nth k hidden false = nth k layers false) /\
     (nth 0 layers false = true -> nth 1 layers true = false ->
      turn_on hidden = Ok layers)) /\
  (exists shown,
     turn_on layers = Ok shown /\
     length shown = length layers /\
     nth 0 shown false = true /\ nth 1 shown true = false /\
     (forall k, (2 <= k)%nat -> nth k shown false = nth k layers false) /\
     (nth 0 layers true = false -> nth 1 layers false = true ->
      turn_off shown = Ok layers)).
Proof.
  intros Hlen. destruct layers as [|a [|b rest]]; simpl in Hlen; try lia.
  split.
  - exists (false :: true :: rest). repeat split.
    + intros [|[|k]] Hk; try lia. reflexivity.
    + cbn. intros -> ->. reflexivity.
  - exists (true :: false :: rest). repeat split.
    + intros [|[|k]] Hk; try lia. reflexivity.
    + cbn. intros -> ->. reflexivity.
Qed.

Lemma layers_round_trip_witness :
  exists hidden,
    turn_off [true; false; false; true] = Ok hidden /\
    turn_on hidden = Ok [true; false; false; true].
Proof.
  destruct (@layers_round_trip [true; false; false; true]) as [(hidden & Hoff & _ & _ & _ & _ & Hon) _].
  - simpl. lia.
  - exists hidden. split; [exact Hoff|]. apply Hon; reflexivity.
Defined.

(** ** Negative sizes *)

(** X15: with a negative [size], a draw of [random_image] that takes the
    solid colour branch raises [ValueError], and so does [rand_background]
    when its base image takes that branch, whatever the number of layers. *)
Theorem negative_size_solid_branch (E : Env) (N size : Z) (st : rng) :
  (size < 0)%Z -> 1 # 2 < random_sample E st ->
  random_image E size st = Raise ValueError /\
  rand_background E N size st = Raise ValueError.
Proof.
  intros Hsize Hr.
  assert (Himg : random_image E size st = Raise ValueError).
  { unfold random_image, bind, uniform. rewrite Qgt_bool_true by lra.
    now apply random_color_negative. }
  split; [assumption|].
  unfold rand_background, bind. now rewrite Himg.
Qed.

Lemma negative_size_solid_branch_witness :
  random_image demo_env (-3) 1%nat = Raise ValueError /\
  rand_background demo_env 2 (-3) 1%nat = Raise ValueError.
Proof.
  apply (@negative_size_solid_branch demo_env 2 (-3) 1%nat); [lia|cbn; lra].
Defined.
